(** * CPMP: branch-and-price for the capacitated p-median problem

    A shallow embedding of the problem-specific SCIP plugins of the
    repository (pricer_cpmp.c, vardata.c, cons_semiassign.c and
    branch_semiassign.c) together with the properties of the design
    document that concern them.

    Conventions of the embedding.
    - C arrays are lists; an access outside the array is undefined
      behaviour in C and is modelled by [None] in the option monad.
      Array indices are C [int]s that are only ever used as indices, so
      they are modelled by [nat]; the one [int] that carries the sentinel
      -1 (the location chosen for branching) is a [Z].
    - [SCIP_Real] and the numerical predicates of SCIP are external to the
      repository; they are an interface ([Numerics]) over which all
      functions are written, and exact rationals give one instance.
    - [assert] is compiled out in SCIP's optimised build; an asserted
      condition is modelled as a separate boolean function, not as
      control flow. *)

From Stdlib Require Import ZArith QArith Qround Qabs Qminmax Lia Lqa Sorted.
From stdpp Require Import base option list.

#[local] Set Warnings "-clear-no-such-hyp".
Open Scope nat_scope.

(* ===================================================================== *)
(** * Part I: the model                                                    *)
(* ===================================================================== *)

(** ** Arrays and loops *)

(** [a[i] = x] on an array: undefined outside the array. *)
Definition arr_set {A} (a : list A) (i : nat) (x : A) : option (list A) :=
  if decide (i < length a) then Some (<[i:=x]> a) else None.

(** [M[i][j]] on an array of arrays. *)
Definition mat_get {A} (M : list (list A)) (i j : nat) : option A :=
  row ← M !! i; row !! j.

(** [M[i][j] = x] on an array of arrays. *)
Definition mat_set {A} (M : list (list A)) (i j : nat) (x : A)
  : option (list (list A)) :=
  row ← M !! i; row' ← arr_set row j x; Some (<[i:=row']> M).

(** [for (i = lo; i < lo + count; ++i) body], threading the state [s]. *)
Fixpoint for_loop {S} (body : nat -> S -> option S) (lo count : nat) (s : S)
  : option S :=
  match count with
  | O => Some s
  | Datatypes.S k => s' ← body lo s; for_loop body (Datatypes.S lo) k s'
  end.

(** Iteration over the elements of an array, threading the state. *)
Fixpoint foldlM {A S} (f : S -> A -> option S) (s : S) (l : list A)
  : option S :=
  match l with
  | [] => Some s
  | x :: l' => s' ← f s x; foldlM f s' l'
  end.

(** An [n] times [n] matrix. *)
Definition square {A} (n : nat) (M : list (list A)) : Prop :=
  length M = n /\ Forall (fun row => length row = n) M.

(** ** pricer_cpmp.c: the restriction state *)

(** [struct SCIP_PricerData]: [forbiddenassignments[median][location]]. *)
Record SCIP_PricerData := {
  forbiddenassignments : list (list bool)
}.

(** [SCIPpricerCpmpForbidAssignments] *)
Definition SCIPpricerCpmpForbidAssignments (nlocations : nat)
  (pricerdata : SCIP_PricerData) (location : nat) (forbidden : list bool)
  : option SCIP_PricerData :=
  fa ← for_loop (fun median fa =>
          f ← forbidden !! median;
          if (f : bool) then mat_set fa median location true else Some fa)
        0 nlocations (forbiddenassignments pricerdata);
  Some {| forbiddenassignments := fa |}.

(** [SCIPpricerCpmpAllowAssignments] *)
Definition SCIPpricerCpmpAllowAssignments (nlocations : nat)
  (pricerdata : SCIP_PricerData) (location : nat) (forbidden : list bool)
  : option SCIP_PricerData :=
  fa ← for_loop (fun median fa =>
          f ← forbidden !! median;
          if (f : bool) then mat_set fa median location false else Some fa)
        0 nlocations (forbiddenassignments pricerdata);
  Some {| forbiddenassignments := fa |}.

(** [SCIPpricerCpmpIsAssignmentForbidden] *)
Definition SCIPpricerCpmpIsAssignmentForbidden
  (pricerdata : SCIP_PricerData) (median location : nat) : option bool :=
  mat_get (forbiddenassignments pricerdata) median location.

(** The body shared by the loops of [SCIPpricerCpmpForbidAssignments]
    ([b = true]) and [SCIPpricerCpmpAllowAssignments] ([b = false]), used to
    reason about both at once. *)
Definition assign_body (b : bool) (location : nat) (forbidden : list bool)
  (median : nat) (fa : list (list bool)) : option (list (list bool)) :=
  f ← forbidden !! median;
  if (f : bool) then mat_set fa median location b else Some fa.

(** ** The SCIP interface *)

(** [SCIP_Real] with the arithmetic and the tolerance predicates of SCIP
    that the plugins use. *)
Class Numerics (Real : Type) := {
  real_0 : Real;                                (* 0.0 *)
  real_1 : Real;                                (* 1.0 *)
  real_half : Real;                             (* 0.5 *)
  real_add : Real -> Real -> Real;
  real_sub : Real -> Real -> Real;
  real_mul : Real -> Real -> Real;
  real_ABS : Real -> Real;                      (* the macro ABS *)
  SCIPinfinity : Real;
  SCIPisFeasIntegral : Real -> bool;
  SCIPisFeasZero : Real -> bool;
  SCIPisFeasLT : Real -> Real -> bool
}.

(** [SCIP_RESULT], the codes the plugins set. *)
Inductive SCIP_RESULT :=
| SCIP_DIDNOTRUN
| SCIP_DIDNOTFIND
| SCIP_SUCCESS
| SCIP_CUTOFF
| SCIP_REDUCEDDOM
| SCIP_BRANCHED.

#[global] Instance SCIP_RESULT_eq_dec : EqDecision SCIP_RESULT.
Proof. solve_decision. Defined.

(** ** vardata.c *)

(** [struct SCIP_VarData]; [nlocations] is the length of [vardata_locations]. *)
Record SCIP_VarData := {
  vardata_median : nat;
  vardata_locations : list nat
}.

(** A master variable: its name ("column_<k>"), objective coefficient,
    local bounds and the cluster it stands for. *)
Record SCIP_VAR (Real : Type) := {
  var_name : nat;
  var_obj : Real;
  var_lb : Real;
  var_ub : Real;
  var_data : SCIP_VarData
}.
Arguments var_name {Real} _.
Arguments var_obj {Real} _.
Arguments var_lb {Real} _.
Arguments var_ub {Real} _.
Arguments var_data {Real} _.

(** [SCIPcreateVarData]: the first [nlocations] entries of [locations] are
    copied. *)
Definition SCIPcreateVarData (median : nat) (locations : list nat)
  (nlocations : nat) : SCIP_VarData :=
  {| vardata_median := median; vardata_locations := take nlocations locations |}.

Definition SCIPvarGetMedian {Real} (var : SCIP_VAR Real) : nat :=
  vardata_median (var_data var).

Definition SCIPvarGetLocations {Real} (var : SCIP_VAR Real) : list nat :=
  vardata_locations (var_data var).

Definition SCIPvarGetNLocations {Real} (var : SCIP_VAR Real) : nat :=
  length (vardata_locations (var_data var)).

(** The loop of [SCIPisLocationInCluster], returning at the first hit. *)
Fixpoint isLocationInCluster_loop (locations : list nat) (location : nat)
  : bool :=
  match locations with
  | [] => false
  | l :: rest =>
      if l =? location then true else isLocationInCluster_loop rest location
  end.

Definition SCIPisLocationInCluster {Real} (var : SCIP_VAR Real)
  (location : nat) : bool :=
  isLocationInCluster_loop (vardata_locations (var_data var)) location.

(** ** Services of the engine *)

(** A knapsack instance as handed to [SCIPsolveKnapsackExactly]: the first
    [nitems] entries of the item, weight and profit arrays, and the
    capacity. *)
Record KnapsackProblem (Real : Type) := {
  kp_nitems : nat;
  kp_items : list nat;
  kp_weights : list Z;
  kp_profits : list Real;
  kp_capacity : Z
}.
Arguments kp_nitems {Real} _.
Arguments kp_items {Real} _.
Arguments kp_weights {Real} _.
Arguments kp_profits {Real} _.
Arguments kp_capacity {Real} _.

Record KnapsackSolution (Real : Type) := {
  ks_solitems : list nat;
  ks_nonsolitems : list nat;
  ks_solval : Real;
  ks_success : bool
}.
Arguments ks_solitems {Real} _.
Arguments ks_nonsolitems {Real} _.
Arguments ks_solval {Real} _.
Arguments ks_success {Real} _.

(** What the plugins call in the engine.
    - [SCIPsortDownRealInt keys ids len] sorts the two arrays jointly and
      returns both;
    - [SCIPfixVar var val] returns the variable after the call and the
      flags [infeasible] and [fixed];
    - [SCIPisStopped] is asked before each pricing problem. *)
Class Engine (Real : Type) := {
  SCIPsortDownRealInt : list Real -> list nat -> nat -> list Real * list nat;
  SCIPfixVar : SCIP_VAR Real -> Real -> SCIP_VAR Real * bool * bool;
  SCIPsolveKnapsackExactly : KnapsackProblem Real -> KnapsackSolution Real;
  SCIPisStopped : nat -> bool
}.

(** ** pricer_cpmp.c: columns and pricing *)

(** The master problem: its variables, and for each linear constraint the
    list of its entries (index of the variable, coefficient). *)
Record Master (Real : Type) := {
  master_vars : list (SCIP_VAR Real);
  serviceconss : list (list (nat * Real));
  convconss : list (list (nat * Real));
  mediancons : list (nat * Real)
}.
Arguments master_vars {Real} _.
Arguments serviceconss {Real} _.
Arguments convconss {Real} _.
Arguments mediancons {Real} _.

Section Pricer.
Context {Real : Type} `{!Numerics Real} `{!Engine Real}.

(** [addColumn].  The local [cost] is passed to [SCIPcreateVarBasic] without
    ever being assigned (the computation is an open TODO in the source), so
    its indeterminate value is an argument of the model; the second TODO,
    adding the variable to the master constraints, is open as well, so the
    constraints are left as they are. *)
Definition addColumn (master : Master Real) (median : nat)
  (locations : list nat) (nlocations : nat) (score : Real) (cost : Real)
  : Master Real :=
  let var := {| var_name := length (master_vars master);
                var_obj := cost;
                var_lb := real_0;
                var_ub := real_1;
                var_data := SCIPcreateVarData median locations nlocations |} in
  {| master_vars := master_vars master ++ [var];
     serviceconss := serviceconss master;
     convconss := convconss master;
     mediancons := mediancons master |}.

(** The loop of [performPricing] over the medians.  [items], [profits] and
    [demands] are the freshly allocated buffers, which the loop never
    writes (the preparation of the knapsack problem is an open TODO), and
    [nitems] is reset to 0 for each median.  The state is the result code
    and the knapsack instances handed to the solver so far; no column is
    added, since the branch for an improving column is empty. *)
Fixpoint performPricing_loop (capacities : list Z) (items : list nat)
  (profits : list Real) (demands : list Z) (median count : nat)
  (result : SCIP_RESULT) (calls : list (KnapsackProblem Real))
  : option (SCIP_RESULT * list (KnapsackProblem Real)) :=
  match count with
  | O => Some (result, calls)
  | S k =>
      if SCIPisStopped median then Some (result, calls)
      else
        let nitems := 0 in
        capacity ← capacities !! median;
        let problem := {| kp_nitems := nitems;
                          kp_items := take nitems items;
                          kp_weights := take nitems demands;
                          kp_profits := take nitems profits;
                          kp_capacity := capacity |} in
        let solution := SCIPsolveKnapsackExactly problem in
        let result := if ks_success solution then SCIP_SUCCESS else result in
        performPricing_loop capacities items profits demands (S median) k
          result (calls ++ [problem])
  end.

(** [performPricing]: the result code, the knapsack instances that were
    solved, and the master problem afterwards. *)
Definition performPricing (nlocations : nat) (capacities : list Z)
  (pricerdata : SCIP_PricerData) (useredcost : bool) (master : Master Real)
  (items : list nat) (profits : list Real) (demands : list Z)
  : option (SCIP_RESULT * list (KnapsackProblem Real) * Master Real) :=
  '(result, calls) ← performPricing_loop capacities items profits demands
                       0 nlocations SCIP_DIDNOTRUN [];
  Some (result, calls, master).

End Pricer.

(** ** cons_semiassign.c *)

(** [struct SCIP_ConsData]; the node is identified by a number. *)
Record SCIP_ConsData := {
  cons_location : nat;
  cons_forbidden : list bool;
  cons_node : nat;
  cons_propagate : bool;
  cons_npropvars : nat
}.

(** [SCIPcreateConsSemiassign] (with the constraint handler included): the
    first [nlocations] entries of [forbidden] are duplicated. *)
Definition SCIPcreateConsSemiassign (nlocations : nat) (location : nat)
  (forbidden : list bool) (node : nat) : SCIP_ConsData :=
  {| cons_location := location;
     cons_forbidden := take nlocations forbidden;
     cons_node := node;
     cons_propagate := true;
     cons_npropvars := 0 |}.

Section ConsSemiassign.
Context {Real : Type} `{!Numerics Real} `{!Engine Real}.

(** The inner loop of [consPropSemiassign] for one constraint, from index
    [i] for at most [count] variables.  Returns the variables, the value of
    [i] when the loop is left (at a [break] it is not incremented), the
    result code, and the indices of the variables whose local upper bound
    was read, in order. *)
Fixpoint consProp_vars (consdata : SCIP_ConsData) (i count : nat)
  (vars : list (SCIP_VAR Real)) (result : SCIP_RESULT) (scanned : list nat)
  : option (list (SCIP_VAR Real) * nat * SCIP_RESULT * list nat) :=
  match count with
  | O => Some (vars, i, result, scanned)
  | S k =>
      var ← vars !! i;
      let scanned := scanned ++ [i] in
      if negb (SCIPisFeasZero (var_ub var)) then
        f ← cons_forbidden consdata !! SCIPvarGetMedian var;
        if (f : bool) && SCIPisLocationInCluster var (cons_location consdata)
        then
          let '(var', infeasible, fixed) := SCIPfixVar var real_0 in
          let vars := <[i:=var']> vars in
          if (infeasible : bool) then Some (vars, i, SCIP_CUTOFF, scanned)
          else consProp_vars consdata (S i) k vars SCIP_REDUCEDDOM scanned
        else consProp_vars consdata (S i) k vars result scanned
      else consProp_vars consdata (S i) k vars result scanned
  end.

(** The body of the outer loop for one constraint. *)
Definition consProp_cons (consdata : SCIP_ConsData)
  (vars : list (SCIP_VAR Real)) (result : SCIP_RESULT)
  : option (SCIP_ConsData * list (SCIP_VAR Real) * SCIP_RESULT * list nat) :=
  if cons_propagate consdata then
    let nvars := length vars in
    '(vars, i, result, scanned) ←
      consProp_vars consdata (cons_npropvars consdata)
        (nvars - cons_npropvars consdata) vars result [];
    Some ({| cons_location := cons_location consdata;
             cons_forbidden := cons_forbidden consdata;
             cons_node := cons_node consdata;
             cons_propagate := false;
             cons_npropvars := i |}, vars, result, scanned)
  else Some (consdata, vars, result, []).

(** The outer loop over the constraints, left at the first cutoff.  The
    last component lists, for each constraint, the indices it scanned. *)
Fixpoint consProp_conss (conss : list SCIP_ConsData)
  (vars : list (SCIP_VAR Real)) (result : SCIP_RESULT)
  : option (list SCIP_ConsData * list (SCIP_VAR Real) * SCIP_RESULT
            * list (list nat)) :=
  match conss with
  | [] => Some ([], vars, result, [])
  | consdata :: rest =>
      if decide (result = SCIP_CUTOFF)
      then Some (conss, vars, result, map (fun _ => []) conss)
      else
        '(consdata', vars, result, scanned) ← consProp_cons consdata vars result;
        '(rest', vars, result, trace) ← consProp_conss rest vars result;
        Some (consdata' :: rest', vars, result, scanned :: trace)
  end.

(** [consPropSemiassign] *)
Definition consPropSemiassign (conss : list SCIP_ConsData)
  (vars : list (SCIP_VAR Real))
  : option (list SCIP_ConsData * list (SCIP_VAR Real) * SCIP_RESULT
            * list (list nat)) :=
  consProp_conss conss vars SCIP_DIDNOTFIND.

End ConsSemiassign.

(** [consActiveSemiassign]: the constraint data, the pricer data, and
    whether [SCIPrepropagateNode] was called. *)
Definition consActiveSemiassign (nlocations nvars : nat)
  (consdata : SCIP_ConsData) (pricerdata : SCIP_PricerData)
  : option (SCIP_ConsData * SCIP_PricerData * bool) :=
  let repropagate := cons_npropvars consdata <? nvars in
  let consdata' :=
    if repropagate
    then {| cons_location := cons_location consdata;
            cons_forbidden := cons_forbidden consdata;
            cons_node := cons_node consdata;
            cons_propagate := true;
            cons_npropvars := cons_npropvars consdata |}
    else consdata in
  pricerdata' ← SCIPpricerCpmpForbidAssignments nlocations pricerdata
                  (cons_location consdata) (cons_forbidden consdata);
  Some (consdata', pricerdata', repropagate).

(** [consDeactiveSemiassign] *)
Definition consDeactiveSemiassign (nlocations : nat)
  (consdata : SCIP_ConsData) (pricerdata : SCIP_PricerData)
  : option (SCIP_ConsData * SCIP_PricerData) :=
  pricerdata' ← SCIPpricerCpmpAllowAssignments nlocations pricerdata
                  (cons_location consdata) (cons_forbidden consdata);
  Some ({| cons_location := cons_location consdata;
           cons_forbidden := cons_forbidden consdata;
           cons_node := cons_node consdata;
           cons_propagate := false;
           cons_npropvars := cons_npropvars consdata |}, pricerdata').

(** ** branch_semiassign.c *)

(** A child node created by the branching rule, with the constraint that
    was added to it. *)
Record Child := {
  child_node : nat;
  child_cons : SCIP_ConsData
}.

Section BranchSemiassign.
Context {Real : Type} `{!Numerics Real} `{!Engine Real}.

(** [assignments[i][j] += x] *)
Definition mat_add (assignments : list (list Real)) (i j : nat) (x : Real)
  : option (list (list Real)) :=
  a ← mat_get assignments i j; mat_set assignments i j (real_add a x).

(** [computeAssignments]; [sol] gives [SCIPgetSolVal(scip, sol, var)]. *)
Definition computeAssignments (nlocations : nat)
  (vars : list (SCIP_VAR Real)) (sol : SCIP_VAR Real -> Real)
  : option (list (list Real)) :=
  let assignments := replicate nlocations (replicate nlocations real_0) in
  foldlM (fun assignments var =>
            let cluster := SCIPvarGetMedian var in
            let memebers := SCIPvarGetLocations var in
            foldlM (fun assignments member =>
                      mat_add assignments member cluster (sol var))
              assignments memebers)
    assignments vars.

(** [sortMedians]: each row of [assignments] and of [sortedids] is handed
    to [SCIPsortDownRealInt], which sorts both in place. *)
Definition sortMedians (nlocations : nat) (sortedids : list (list nat))
  (assignments : list (list Real))
  : option (list (list nat) * list (list Real)) :=
  for_loop (fun i '(sortedids, assignments) =>
              keys ← assignments !! i;
              ids ← sortedids !! i;
              let '(keys', ids') := SCIPsortDownRealInt keys ids nlocations in
              Some (<[i:=ids']> sortedids, <[i:=keys']> assignments))
    0 nlocations (sortedids, assignments).

(** The inner loop of [chooseLocation] for location [i]:
    [(nfracmedians, totfrac, halffrac)]. *)
Definition chooseLocation_medians (nlocations : nat)
  (assignments : list (list Real)) (i : nat) : option (nat * Real * Real) :=
  for_loop (fun median '(nfracmedians, totfrac, halffrac) =>
              a ← mat_get assignments i median;
              if negb (SCIPisFeasIntegral a) then
                Some (nfracmedians + 1, real_add totfrac a,
                      if median mod 2 =? 0 then real_add halffrac a
                      else halffrac)
              else Some (nfracmedians, totfrac, halffrac))
    0 nlocations (0, real_0, real_0).

(** The outer loop of [chooseLocation], on the state
    [(location, maxnfracmedians, minfracdiff)]. *)
Definition chooseLocation_step (nlocations : nat)
  (assignments : list (list Real)) (i : nat) (st : Z * nat * Real)
  : option (Z * nat * Real) :=
  let '(location, maxnfracmedians, minfracdiff) := st in
  '(nfracmedians, totfrac, halffrac) ←
    chooseLocation_medians nlocations assignments i;
  let fracdiff := real_ABS (real_sub halffrac (real_mul real_half totfrac)) in
  if (maxnfracmedians <? nfracmedians)
     || ((0 <? nfracmedians) && (nfracmedians =? maxnfracmedians)
         && SCIPisFeasLT fracdiff minfracdiff)
  then Some (Z.of_nat i, nfracmedians, fracdiff)
  else Some (location, maxnfracmedians, minfracdiff).

(** [chooseLocation]: the location to branch on, or -1. *)
Definition chooseLocation (nlocations : nat) (assignments : list (list Real))
  : option Z :=
  '(location, _, _) ← for_loop (chooseLocation_step nlocations assignments)
                        0 nlocations ((-1)%Z, 0, SCIPinfinity);
  Some location.

(** The loop of [performBranching] over the positions of [sortedids], on the
    state [(leftforbidden, rightforbidden)]. *)
Definition performBranching_step (pricerdata : SCIP_PricerData)
  (sortedids : list nat) (location : nat) (i : nat)
  (st : list bool * list bool) : option (list bool * list bool) :=
  let '(leftforbidden, rightforbidden) := st in
  median ← sortedids !! i;
  f ← SCIPpricerCpmpIsAssignmentForbidden pricerdata median location;
  if (f : bool) then Some (leftforbidden, rightforbidden)
  else if i mod 2 =? 1 then
    l ← arr_set leftforbidden median false;
    r ← arr_set rightforbidden median true;
    Some (l, r)
  else
    l ← arr_set leftforbidden median true;
    r ← arr_set rightforbidden median false;
    Some (l, r).

(** [performBranching]: the two child nodes, in the order of creation. *)
Definition performBranching (nlocations : nat) (pricerdata : SCIP_PricerData)
  (sortedids : list nat) (assignments : list Real) (location : nat)
  : option (list Child) :=
  '(leftforbidden, rightforbidden) ←
    for_loop (performBranching_step pricerdata sortedids location)
      0 nlocations (replicate nlocations false, replicate nlocations false);
  Some [ {| child_node := 0;
            child_cons := SCIPcreateConsSemiassign nlocations location
                            leftforbidden 0 |};
         {| child_node := 1;
            child_cons := SCIPcreateConsSemiassign nlocations location
                            rightforbidden 1 |} ].

(** The condition asserted at the head of the loop of [performBranching],
    for all iterations:
    [!SCIPisFeasIntegral(assignments[sortedids[i]])
     || SCIPisFeasZero(assignments[sortedids[i]])]. *)
Definition performBranching_assertion (nlocations : nat)
  (sortedids : list nat) (assignments : list Real) : option bool :=
  for_loop (fun i ok =>
              median ← sortedids !! i;
              a ← assignments !! median;
              Some (ok && (negb (SCIPisFeasIntegral a) || SCIPisFeasZero a)))
    0 nlocations true.

(** [branchExeclpSemiassign]: the result code and the children created. *)
Definition branchExeclpSemiassign (nlocations : nat)
  (vars : list (SCIP_VAR Real)) (sol : SCIP_VAR Real -> Real)
  (pricerdata : SCIP_PricerData) : option (SCIP_RESULT * list Child) :=
  let sortedids := replicate nlocations (seq 0 nlocations) in
  assignments ← computeAssignments nlocations vars sol;
  '(sortedids, assignments) ← sortMedians nlocations sortedids assignments;
  location ← chooseLocation nlocations assignments;
  if (location =? -1)%Z then Some (SCIP_DIDNOTFIND, [])
  else
    ids ← sortedids !! Z.to_nat location;
    row ← assignments !! Z.to_nat location;
    children ← performBranching nlocations pricerdata ids row
                 (Z.to_nat location);
    Some (SCIP_BRANCHED, children).

End BranchSemiassign.


(** ** A reference instance of the SCIP interface

    Exact rationals for [SCIP_Real], SCIP's tolerance predicates at the
    default feasibility tolerance 1e-6, and a small engine: a stable
    insertion sort, a bound-respecting [SCIPfixVar], an exhaustive knapsack
    solver, and no interruption.  It serves to run the plugins on concrete
    inputs; the general statements below do not depend on it. *)

Module Exact.
#[local] Open Scope Q_scope.

Definition feastol : Q := 1 # 1000000.

Definition ABS (x : Q) : Q := if Qle_bool 0 x then x else Qred (- x).

(** [EPSISINT(x, eps)]: [x - floor(x + eps) <= eps]. *)
Definition EPSISINT (x eps : Q) : bool :=
  Qle_bool (x - inject_Z (Qfloor (x + eps))) eps.

(** [EPSZ(x, eps)]: [|x| <= eps]. *)
Definition EPSZ (x eps : Q) : bool := Qle_bool (ABS x) eps.

(** [SCIPrelDiff]: the difference relative to the largest of 1 and the two
    absolute values. *)
Definition quot (a b : Q) : Q := Qmax (Qmax (ABS a) (ABS b)) 1.

Definition relDiff (a b : Q) : Q := (a - b) / quot a b.

(** [EPSN(x, eps)]: [x < -eps]. *)
Definition EPSN (x eps : Q) : bool := negb (Qle_bool (- eps) x).

#[global] Instance numerics : Numerics Q := {|
  real_0 := 0;
  real_1 := 1;
  real_half := 1 # 2;
  real_add x y := Qred (x + y);
  real_sub x y := Qred (x - y);
  real_mul x y := Qred (x * y);
  real_ABS := ABS;
  SCIPinfinity := 100000000000000000000;
  SCIPisFeasIntegral x := EPSISINT x feastol;
  SCIPisFeasZero x := EPSZ x feastol;
  SCIPisFeasLT a b := EPSN (relDiff a b) feastol
|}.

(** Insertion behind all entries with a key at least as large. *)
Fixpoint insert_down (k : Q) (id : nat) (l : list (Q * nat))
  : list (Q * nat) :=
  match l with
  | [] => [(k, id)]
  | (k', id') :: rest =>
      if Qle_bool k k' then (k', id') :: insert_down k id rest
      else (k, id) :: l
  end.

Definition sortDown (keys : list Q) (ids : list nat) (len : nat)
  : list Q * list nat :=
  let sorted := foldl (fun acc p => insert_down (fst p) (snd p) acc) []
                  (zip (take len keys) (take len ids)) in
  (sorted.*1 ++ drop len keys, sorted.*2 ++ drop len ids).

Definition fixVar (var : SCIP_VAR Q) (val : Q) : SCIP_VAR Q * bool * bool :=
  if negb (Qle_bool (var_lb var) val) || negb (Qle_bool val (var_ub var))
  then (var, true, false)
  else ({| var_name := var_name var; var_obj := var_obj var;
           var_lb := val; var_ub := val; var_data := var_data var |},
        false, true).

(** The best subset of the items [(item, weight, profit)] within [cap]. *)
Fixpoint knapsack (l : list (nat * Z * Q)) (cap : Z) : list nat * Q :=
  match l with
  | [] => ([], 0)
  | (item, w, p) :: rest =>
      let '(s0, v0) := knapsack rest cap in
      if (w <=? cap)%Z then
        let '(s1, v1) := knapsack rest (cap - w) in
        if Qle_bool (v1 + p) v0 then (s0, v0) else (item :: s1, Qred (v1 + p))
      else (s0, v0)
  end.

Definition solveKnapsack (problem : KnapsackProblem Q) : KnapsackSolution Q :=
  let '(sol, val) :=
    knapsack (zip (zip (kp_items problem) (kp_weights problem))
                (kp_profits problem)) (kp_capacity problem) in
  {| ks_solitems := sol;
     ks_nonsolitems :=
       filter (fun i => negb (bool_decide (i ∈ sol))) (kp_items problem);
     ks_solval := val;
     ks_success := true |}.

#[global] Instance engine : Engine Q := {|
  SCIPsortDownRealInt := sortDown;
  SCIPfixVar := fixVar;
  SCIPsolveKnapsackExactly := solveKnapsack;
  SCIPisStopped _ := false
|}.

End Exact.

(** ** probdata.c *)

(** [createConstraints]: one service and one convexity constraint per
    location and the p-median constraint, all without variables (sides and
    flags are not modelled). *)
Definition createConstraints {Real} (nlocations : nat) : Master Real :=
  {| master_vars := [];
     serviceconss := replicate nlocations [];
     convconss := replicate nlocations [];
     mediancons := [] |}.

(** ** Loop invariants and specification-side definitions *)

(** The locations that are not forbidden for a median: the item list of the
    pricing problem as the design document states it. *)
Definition eligible_locations (n : nat) (pd : SCIP_PricerData) (median : nat)
  : list nat :=
  filter (fun l => SCIPpricerCpmpIsAssignmentForbidden pd median l
                   = Some false) (seq 0 n).

(** The number of master constraints in which variable [v] has an entry. *)
Definition in_row {Real} (v : nat) (row : list (nat * Real)) : bool :=
  bool_decide (v ∈ row.*1).

Definition attached_rows {Real} (master : Master Real) (v : nat) : nat :=
  length (filter (fun row => in_row v row = true) (serviceconss master))
  + length (filter (fun row => in_row v row = true) (convconss master))
  + (if in_row v (mediancons master) then 1 else 0).


(** [performBranching]: what holds of [(leftforbidden, rightforbidden)] when
    the positions below [k] of [ids] are done. *)
Definition branching_inv (n : nat) (pd : SCIP_PricerData) (ids : list nat)
  (loc : nat) (k : nat) (st : list bool * list bool) : Prop :=
  length st.1 = n /\ length st.2 = n
  /\ (forall i m, i < k -> ids !! i = Some m ->
        exists f, SCIPpricerCpmpIsAssignmentForbidden pd m loc = Some f
                  /\ st.1 !! m = Some (negb f && Nat.even i)
                  /\ st.2 !! m = Some (negb f && Nat.odd i))
  /\ (forall m, m < n -> (forall i, i < k -> ids !! i <> Some m) ->
        st.1 !! m = Some false /\ st.2 !! m = Some false).

(** The data of a master variable is valid for [n] locations: the median and
    the members are locations, and no member is listed twice. *)
Definition valid_var {Real} (n : nat) (var : SCIP_VAR Real) : Prop :=
  SCIPvarGetMedian var < n
  /\ Forall (fun l => l < n) (SCIPvarGetLocations var)
  /\ NoDup (SCIPvarGetLocations var).

#[global] Instance valid_var_dec {Real} n (var : SCIP_VAR Real) :
  Decision (valid_var n var).
Proof. unfold valid_var. apply _. Defined.

(** The assignment value of location [i] to median [j] as the design
    document states it: the sum, in the order of the variables, of the
    solution values of the variables with median [j] and [i] among the
    members. *)
Definition assignment_value {Real} `{!Numerics Real}
  (vars : list (SCIP_VAR Real)) (sol : SCIP_VAR Real -> Real) (i j : nat)
  : Real :=
  foldl real_add real_0
    (map sol (filter (fun var => SCIPvarGetMedian var = j
                                 /\ i ∈ SCIPvarGetLocations var) vars)).

(** ** Sample data

    Three locations, all distances zero, p = 3.  Five columns: location 0
    as its own cluster at value 1, and for each of the medians 1 and 2 the
    clusters with and without location 0 at value 1/2 each.  The values
    satisfy the coverage, convexity and cardinality rows of the master
    problem. *)

Module Sample.
#[local] Open Scope Q_scope.

Definition column (name median : nat) (locations : list nat) : SCIP_VAR Q :=
  {| var_name := name; var_obj := 0; var_lb := 0; var_ub := 1;
     var_data := {| vardata_median := median;
                    vardata_locations := locations |} |}.

Definition vars : list (SCIP_VAR Q) :=
  [ column 0 0 [0%nat];
    column 1 1 [0%nat; 1%nat];
    column 2 1 [1%nat];
    column 3 2 [0%nat; 2%nat];
    column 4 2 [2%nat] ].

Definition sol (var : SCIP_VAR Q) : Q :=
  match var_name var with
  | O => 1
  | _ => 1 # 2
  end.

(** No assignment is forbidden. *)
Definition unrestricted (n : nat) : SCIP_PricerData :=
  {| forbiddenassignments := replicate n (replicate n false) |}.

(** A second instance with four locations: location 0 is split evenly
    between the medians 0 and 1, the other locations are integral. *)
Definition vars4 : list (SCIP_VAR Q) :=
  [ column 0 0 [0%nat];
    column 1 1 [0%nat; 1%nat];
    column 2 1 [1%nat];
    column 3 2 [2%nat];
    column 4 3 [3%nat] ].

Definition sol4 (var : SCIP_VAR Q) : Q :=
  match var_name var with
  | 0%nat | 1%nat | 2%nat => 1 # 2
  | _ => 1
  end.

(** Median 2 is forbidden for location 0 by an earlier branching. *)
Definition restricted4 : SCIP_PricerData :=
  {| forbiddenassignments :=
       [ [false; false; false; false];
         [false; false; false; false];
         [true; false; false; false];
         [false; false; false; false] ] |}.

End Sample.

(** ** The selection rule as the design document states it *)

Section Selection.
Context {Real : Type} `{!Numerics Real}.

(** The number of fractional entries of a row of the assignment matrix. *)
Definition nfrac (row : list Real) : nat :=
  length (filter (fun a => SCIPisFeasIntegral a = false) row).

(** The sum of the fractional entries of a row. *)
Definition totfrac (row : list Real) : Real :=
  foldl real_add real_0 (filter (fun a => SCIPisFeasIntegral a = false) row).

(** The sum of the fractional entries at the even indices of a row. *)
Definition halffrac (row : list Real) : Real :=
  foldl real_add real_0
    (map snd (filter (fun p => Nat.even p.1 = true
                               /\ SCIPisFeasIntegral p.2 = false)
                (imap pair row))).

(** [|halffrac - 0.5 * totfrac|] *)
Definition fracdiff (row : list Real) : Real :=
  real_ABS (real_sub (halffrac row) (real_mul real_half (totfrac row))).

(** What the tie-break of [chooseLocation] needs of [SCIPisFeasLT]. *)
Class FeasLTOrder : Prop := {
  feasLT_irrefl : forall x, SCIPisFeasLT x x = false;
  feasLT_trans : forall x y z,
    SCIPisFeasLT x y = true -> SCIPisFeasLT y z = true ->
    SCIPisFeasLT x z = true
}.

(** [chooseLocation]: what holds of [(location, maxnfracmedians,
    minfracdiff)] when the locations below [k] are done; [better d d'] is
    the relation kept between the value [d] of every location with the
    maximal count and the value [d'] of the chosen one. *)
Definition choose_inv (better : Real -> Real -> Prop)
  (assignments : list (list Real)) (k : nat) (st : Z * nat * Real) : Prop :=
  let '(location, maxnfracmedians, minfracdiff) := st in
  (forall i row, i < k -> assignments !! i = Some row ->
                 nfrac row <= maxnfracmedians)
  /\ ((maxnfracmedians = 0 /\ location = (-1)%Z)
      \/ exists l row,
           location = Z.of_nat l /\ l < k /\ assignments !! l = Some row
           /\ nfrac row = maxnfracmedians /\ 0 < maxnfracmedians
           /\ minfracdiff = fracdiff row
           /\ forall i row', i < k -> assignments !! i = Some row' ->
                nfrac row' = maxnfracmedians ->
                better (fracdiff row') minfracdiff).

End Selection.

(** ** The contract of the sorting routine *)

(** [SCIPsortDownRealInt] permutes each of the two arrays of length [n]. *)
Definition sort_contract {Real} `{!Engine Real} (n : nat) : Prop :=
  forall (keys : list Real) (ids : list nat),
    length keys = n -> length ids = n ->
    Permutation (SCIPsortDownRealInt keys ids n).1 keys
    /\ Permutation (SCIPsortDownRealInt keys ids n).2 ids.

(** [sortMedians]: the rows below [k] are sorted, the others untouched. *)
Definition sort_inv {Real} `{!Engine Real} (n : nat)
  (sortedids0 : list (list nat)) (assignments0 : list (list Real))
  (k : nat) (st : list (list nat) * list (list Real)) : Prop :=
  length st.1 = length sortedids0 /\ length st.2 = length assignments0
  /\ (forall i keys ids, i < k ->
        assignments0 !! i = Some keys -> sortedids0 !! i = Some ids ->
        st.1 !! i = Some (SCIPsortDownRealInt keys ids n).2
        /\ st.2 !! i = Some (SCIPsortDownRealInt keys ids n).1)
  /\ (forall i, k <= i ->
        st.1 !! i = sortedids0 !! i /\ st.2 !! i = assignments0 !! i).

(** ** Propagation: contract of [SCIPfixVar] and invariants *)

Section PropagationInvariants.
Context {Real : Type} `{!Numerics Real} `{!Engine Real}.

(** [SCIPfixVar(var, 0.0)] keeps the data of the variable, and unless it
    reports infeasibility the variable has a zero upper bound afterwards
    (the case in which the source asserts [fixed]). *)
Definition fixVar_contract : Prop :=
  forall var : SCIP_VAR Real,
    var_data (SCIPfixVar var real_0).1.1 = var_data var
    /\ ((SCIPfixVar var real_0).1.2 = false ->
        SCIPisFeasZero (var_ub (SCIPfixVar var real_0).1.1) = true).

(** The cluster of the variable assigns the location of the constraint to
    a median that the constraint forbids. *)
Definition violates (consdata : SCIP_ConsData) (var : SCIP_VAR Real) : Prop :=
  cons_forbidden consdata !! SCIPvarGetMedian var = Some true
  /\ SCIPisLocationInCluster var (cons_location consdata) = true.

(** Every variable below the mark of the constraint that violates it has a
    zero upper bound. *)
Definition scanned_fixed (vars : list (SCIP_VAR Real))
  (consdata : SCIP_ConsData) : Prop :=
  forall j var, j < cons_npropvars consdata -> vars !! j = Some var ->
                violates consdata var -> SCIPisFeasZero (var_ub var) = true.

(** The medians of the variables are within the array of the constraint. *)
Definition medians_in_range (vars : list (SCIP_VAR Real))
  (consdata : SCIP_ConsData) : Prop :=
  Forall (fun var => SCIPvarGetMedian var < length (cons_forbidden consdata))
    vars.

(** How propagation changes the variables: the data stay, and a variable
    with a zero upper bound is not touched. *)
Definition vars_step (vars vars' : list (SCIP_VAR Real)) : Prop :=
  length vars' = length vars
  /\ forall j var, vars !! j = Some var ->
       exists var', vars' !! j = Some var'
                    /\ var_data var' = var_data var
                    /\ (SCIPisFeasZero (var_ub var) = true -> var' = var).

(** What one call of [consPropSemiassign] establishes for a constraint:
    [consdata] before, [consdata'] after, [scanned] the indices it read,
    [vars'] and [result] the variables and the result code at the end. *)
Definition propagated (vars' : list (SCIP_VAR Real)) (result : SCIP_RESULT)
  (consdata consdata' : SCIP_ConsData) (scanned : list nat) : Prop :=
  cons_location consdata' = cons_location consdata
  /\ cons_forbidden consdata' = cons_forbidden consdata
  /\ scanned_fixed vars' consdata'
  /\ (forall j, j ∈ scanned -> cons_npropvars consdata <= j)
  /\ (result <> SCIP_CUTOFF -> cons_propagate consdata = true ->
      cons_npropvars consdata <= length vars' ->
      cons_npropvars consdata' = length vars'
      /\ cons_propagate consdata' = false).

End PropagationInvariants.

(** ** Further functions of the plugins *)

(** [SCIPpricerCpmpForbidAssignment]; the two assertions of the source say
    that [median] and [location] are locations. *)
Definition SCIPpricerCpmpForbidAssignment (pricerdata : SCIP_PricerData)
  (median location : nat) : option SCIP_PricerData :=
  fa ← mat_set (forbiddenassignments pricerdata) median location true;
  Some {| forbiddenassignments := fa |}.

(** [SCIPpricerCpmpAllowAssignment] *)
Definition SCIPpricerCpmpAllowAssignment (pricerdata : SCIP_PricerData)
  (median location : nat) : option SCIP_PricerData :=
  fa ← mat_set (forbiddenassignments pricerdata) median location false;
  Some {| forbiddenassignments := fa |}.

(** [pricerInitsolCpmp]: the matrix is allocated and cleared. *)
Definition pricerInitsolCpmp (nlocations : nat) : SCIP_PricerData :=
  {| forbiddenassignments := replicate nlocations (replicate nlocations false) |}.

(** The number of medians for which [performPricing] solves a pricing
    problem: those before the first one at which [SCIPisStopped] holds. *)
Fixpoint priced_medians {Real} `{!Engine Real} (median count : nat) : nat :=
  match count with
  | O => 0
  | S k => if SCIPisStopped median then 0
           else S (priced_medians (S median) k)
  end.

(** The medians of a constraint are new for a restriction state: none of
    the pairs it forbids is forbidden in the state. *)
Definition newly_forbidden (n : nat) (pd : SCIP_PricerData)
  (consdata : SCIP_ConsData) : Prop :=
  forall m, m < n -> cons_forbidden consdata !! m = Some true ->
    SCIPpricerCpmpIsAssignmentForbidden pd m (cons_location consdata)
    = Some false.

(** The shape a constraint needs for [n] locations. *)
Definition cons_fits (n : nat) (consdata : SCIP_ConsData) : Prop :=
  cons_location consdata < n /\ n <= length (cons_forbidden consdata).

(** What the trace of one call of [consPropSemiassign] shows for a
    constraint, with [nvars] variables and the result code [result]: a
    constraint that is not flagged reads nothing and stays as it is; a
    flagged one reads a contiguous range of indices from its mark on;
    unless a cutoff is reported, the flag is cleared, the range of a
    flagged constraint ends at the last variable (it is empty if the mark
    is not below the number of variables), and its mark becomes the larger
    of the old mark and the number of variables: the loop counter [i], which
    starts at the mark, is stored back. *)
Definition scan_record (nvars : nat) (result : SCIP_RESULT)
  (consdata consdata' : SCIP_ConsData) (scanned : list nat) : Prop :=
  (cons_propagate consdata = false -> scanned = [] /\ consdata' = consdata)
  /\ scanned = seq (cons_npropvars consdata) (length scanned)
  /\ (result <> SCIP_CUTOFF ->
      cons_propagate consdata' = false
      /\ (cons_propagate consdata = true ->
          scanned = seq (cons_npropvars consdata)
                      (nvars - cons_npropvars consdata)
          /\ cons_npropvars consdata'
             = Nat.max (cons_npropvars consdata) nvars)).

(** ** The order of the sorting routine *)

(** The comparison [<=] of [SCIP_Real], by which [SCIPsortDownRealInt]
    orders its keys. *)
Class RealOrder (Real : Type) := {
  real_le : Real -> Real -> bool
}.

#[global] Instance exact_order : RealOrder Q := {|
  real_le := Qle_bool
|}.

(** [SCIPsortDownRealInt(realarray, intarray, len)] sorts the two arrays
    jointly by non-increasing key: each key keeps its integer, and a key at
    an earlier position is not below a key at a later one.  Nothing is said
    about the order of equal keys. *)
Definition sort_down_contract {Real} `{!RealOrder Real} `{!Engine Real}
  (n : nat) : Prop :=
  forall (keys : list Real) (ids : list nat),
    length keys = n -> length ids = n ->
    length (SCIPsortDownRealInt keys ids n).1 = n
    /\ length (SCIPsortDownRealInt keys ids n).2 = n
    /\ Permutation (zip (SCIPsortDownRealInt keys ids n).1
                        (SCIPsortDownRealInt keys ids n).2)
         (zip keys ids)
    /\ forall i j a b, i < j ->
         (SCIPsortDownRealInt keys ids n).1 !! i = Some a ->
         (SCIPsortDownRealInt keys ids n).1 !! j = Some b ->
         real_le b a = true.

(** ** Further sample data *)

Module Sample2.
#[local] Open Scope Q_scope.

(** Three locations; location 0 is split between median 0 (1/4) and
    median 1 (3/4), so that sorting its row changes the order of the
    medians; the locations 1 and 2 are integral. *)
Definition vars : list (SCIP_VAR Q) :=
  [ Sample.column 0 0 [0%nat];
    Sample.column 1 1 [0%nat; 1%nat];
    Sample.column 2 1 [1%nat];
    Sample.column 3 2 [2%nat] ].

Definition sol (var : SCIP_VAR Q) : Q :=
  match var_name var with
  | 0%nat => 1 # 4
  | 1%nat => 3 # 4
  | 2%nat => 1 # 4
  | _ => 1
  end.

(** Median 2 is forbidden for location 0 by an earlier branching. *)
Definition restricted : SCIP_PricerData :=
  {| forbiddenassignments :=
       [ [false; false; false];
         [false; false; false];
         [true; false; false] ] |}.

(** A solution of the sample columns in which the two columns of median 1
    are at zero. *)
Definition sol_fixed (var : SCIP_VAR Q) : Q :=
  match var_name var with
  | 1%nat | 2%nat => 0
  | _ => 1
  end.

End Sample2.

(* ===================================================================== *)
(** * Part II: properties                                                  *)
(* ===================================================================== *)

#[local] Arguments Nat.modulo : simpl never.

(** ** Arrays *)

Lemma arr_set_Some {A} (a : list A) i x :
  i < length a -> arr_set a i x = Some (<[i:=x]> a).
Proof. intros Hi. unfold arr_set. by rewrite decide_True. Qed.

Lemma arr_set_inv {A} (a a' : list A) i x :
  arr_set a i x = Some a' -> i < length a /\ a' = <[i:=x]> a.
Proof. unfold arr_set. case_decide; naive_solver. Qed.

Lemma mat_set_inv {A} (M M' : list (list A)) i j x :
  mat_set M i j x = Some M' ->
  exists row, M !! i = Some row /\ j < length row
              /\ M' = <[i:=<[j:=x]> row]> M.
Proof.
  unfold mat_set. intros H.
  destruct (M !! i) as [row|] eqn:Hrow; simpl in H; [|done].
  destruct (arr_set row j x) as [row'|] eqn:Hset; simpl in H; [|done].
  apply arr_set_inv in Hset as [Hj ->]. exists row. naive_solver.
Qed.

Lemma mat_set_Some {A} (M : list (list A)) i j x row :
  M !! i = Some row -> j < length row ->
  mat_set M i j x = Some (<[i:=<[j:=x]> row]> M).
Proof.
  intros Hrow Hj. unfold mat_set. rewrite Hrow. simpl.
  by rewrite arr_set_Some.
Qed.

Lemma mat_get_set {A} (M : list (list A)) i j x row i' j' :
  M !! i = Some row -> j < length row ->
  mat_get (<[i:=<[j:=x]> row]> M) i' j'
  = if decide (i' = i /\ j' = j) then Some x else mat_get M i' j'.
Proof.
  intros Hrow Hj. unfold mat_get.
  assert (i < length M) by (by eapply lookup_lt_Some).
  destruct (decide (i' = i)) as [->|Hne].
  - rewrite list_lookup_insert_eq by done. rewrite Hrow. simpl.
    destruct (decide (j' = j)) as [->|Hnej].
    + rewrite decide_True by done. by rewrite list_lookup_insert_eq.
    + rewrite decide_False by naive_solver. by rewrite list_lookup_insert_ne.
  - rewrite decide_False by naive_solver. by rewrite list_lookup_insert_ne.
Qed.

Lemma square_lookup {A} n (M : list (list A)) i :
  square n M -> i < n -> exists row, M !! i = Some row /\ length row = n.
Proof.
  intros [Hlen Hrows] Hi.
  destruct (lookup_lt_is_Some_2 M i) as [row Hrow]; [lia|].
  exists row. split; [done|]. eapply Forall_lookup_1 in Hrows; eauto.
Qed.

Lemma square_insert {A} n (M : list (list A)) i row :
  square n M -> length row = n -> square n (<[i:=row]> M).
Proof.
  intros [Hlen Hrows] Hrow. split; [by rewrite length_insert|].
  by apply Forall_insert.
Qed.

Lemma square_mat_get {A} n (M : list (list A)) i j :
  square n M -> i < n -> j < n -> is_Some (mat_get M i j).
Proof.
  intros HM Hi Hj. destruct (square_lookup n M i HM Hi) as (row & Hrow & Hlen).
  unfold mat_get. rewrite Hrow. simpl. apply lookup_lt_is_Some_2. lia.
Qed.

(** ** The restriction state (pricer_cpmp.c) *)

(** Closes a goal left by a case distinction on two conditions that cannot
    differ. *)
Ltac range_cases :=
  repeat case_decide; try done;
  repeat match goal with H : _ /\ _ |- _ => destruct H end;
  exfalso;
  match goal with
  | H : ~ _ |- _ => apply H; repeat split; solve [done | lia]
  end.

Lemma assign_loop_spec b location forbidden n count :
  forall lo fa,
    square n fa -> location < n -> lo + count <= n ->
    lo + count <= length forbidden ->
    exists fa',
      for_loop (assign_body b location forbidden) lo count fa = Some fa'
      /\ square n fa'
      /\ forall m l,
          mat_get fa' m l
          = if decide (l = location /\ lo <= m < lo + count
                       /\ forbidden !! m = Some true)
            then Some b else mat_get fa m l.
Proof.
  induction count as [|k IH]; intros lo fa Hsq Hloc Hn Hmask.
  - exists fa. split; [done|]. split; [done|]. intros m l.
    rewrite decide_False; [done|lia].
  - cbn [for_loop].
    destruct (lookup_lt_is_Some_2 forbidden lo) as [f Hf]; [lia|].
    assert (assign_body b location forbidden lo fa
            = if f then mat_set fa lo location b else Some fa) as ->.
    { unfold assign_body. by rewrite Hf. }
    destruct f.
    + destruct (square_lookup n fa lo Hsq) as (row & Hrow & Hlen); [lia|].
      rewrite (mat_set_Some fa lo location b row) by (done || lia). simpl.
      destruct (IH (S lo) (<[lo:=<[location:=b]> row]> fa))
        as (fa' & Hrun & Hsq' & Hget); [|done|lia|lia|].
      { apply square_insert; [done|]. by rewrite length_insert. }
      exists fa'. split; [done|]. split; [done|]. intros m l.
      rewrite Hget. rewrite mat_get_set by (done || lia).
      repeat case_decide; try done; try lia; naive_solver lia.
    + destruct (IH (S lo) fa) as (fa' & Hrun & Hsq' & Hget);
        [done|done|lia|lia|].
      exists fa'. split; [done|]. split; [done|]. intros m l.
      rewrite Hget. destruct (decide (m = lo)) as [->|Hne]; [|range_cases].
      rewrite !decide_False; [done| |lia]. rewrite Hf. naive_solver.
Qed.

Lemma square_ext {A} n (M M' : list (list A)) :
  square n M -> square n M' ->
  (forall i j, mat_get M i j = mat_get M' i j) -> M = M'.
Proof.
  intros HM HM' Hext. apply list_eq. intros i.
  destruct (decide (i < n)) as [Hi|Hi].
  - destruct (square_lookup n M i HM Hi) as (row & Hrow & Hlen).
    destruct (square_lookup n M' i HM' Hi) as (row' & Hrow' & Hlen').
    rewrite Hrow, Hrow'. f_equal. apply list_eq. intros j.
    specialize (Hext i j). unfold mat_get in Hext.
    by rewrite Hrow, Hrow' in Hext.
  - destruct HM as [HM _], HM' as [HM' _].
    rewrite !lookup_ge_None_2; [done|lia|lia].
Qed.

Lemma forbid_spec n pd location forbidden :
  square n (forbiddenassignments pd) -> location < n ->
  n <= length forbidden ->
  exists pd',
    SCIPpricerCpmpForbidAssignments n pd location forbidden = Some pd'
    /\ square n (forbiddenassignments pd')
    /\ forall m l,
        SCIPpricerCpmpIsAssignmentForbidden pd' m l
        = if decide (l = location /\ m < n /\ forbidden !! m = Some true)
          then Some true
          else SCIPpricerCpmpIsAssignmentForbidden pd m l.
Proof.
  intros Hsq Hloc Hlen.
  destruct (assign_loop_spec true location forbidden n n 0
              (forbiddenassignments pd)) as (fa' & Hrun & Hsq' & Hget);
    [done|done|lia|lia|].
  exists {| forbiddenassignments := fa' |}.
  unfold SCIPpricerCpmpForbidAssignments, SCIPpricerCpmpIsAssignmentForbidden.
  change (for_loop _ 0 n (forbiddenassignments pd))
    with (for_loop (assign_body true location forbidden) 0 n
            (forbiddenassignments pd)).
  rewrite Hrun. simpl. split; [done|]. split; [done|]. intros m l.
  rewrite Hget. repeat case_decide; try done; naive_solver lia.
Qed.

Lemma allow_spec n pd location forbidden :
  square n (forbiddenassignments pd) -> location < n ->
  n <= length forbidden ->
  exists pd',
    SCIPpricerCpmpAllowAssignments n pd location forbidden = Some pd'
    /\ square n (forbiddenassignments pd')
    /\ forall m l,
        SCIPpricerCpmpIsAssignmentForbidden pd' m l
        = if decide (l = location /\ m < n /\ forbidden !! m = Some true)
          then Some false
          else SCIPpricerCpmpIsAssignmentForbidden pd m l.
Proof.
  intros Hsq Hloc Hlen.
  destruct (assign_loop_spec false location forbidden n n 0
              (forbiddenassignments pd)) as (fa' & Hrun & Hsq' & Hget);
    [done|done|lia|lia|].
  exists {| forbiddenassignments := fa' |}.
  unfold SCIPpricerCpmpAllowAssignments, SCIPpricerCpmpIsAssignmentForbidden.
  change (for_loop _ 0 n (forbiddenassignments pd))
    with (for_loop (assign_body false location forbidden) 0 n
            (forbiddenassignments pd)).
  rewrite Hrun. simpl. split; [done|]. split; [done|]. intros m l.
  rewrite Hget. repeat case_decide; try done; naive_solver lia.
Qed.

Lemma pricerdata_ext n pd pd' :
  square n (forbiddenassignments pd) -> square n (forbiddenassignments pd') ->
  (forall m l, SCIPpricerCpmpIsAssignmentForbidden pd m l
               = SCIPpricerCpmpIsAssignmentForbidden pd' m l) ->
  pd = pd'.
Proof.
  destruct pd as [fa], pd' as [fa']. simpl. intros Hsq Hsq' Hext.
  f_equal. by apply (square_ext n).
Qed.

(** C6 (as amended).  On an [n] times [n] restriction state, forbidding and
    then allowing the medians of a mask for a location both succeed; every
    masked pair is allowed afterwards, so the value before the forbid call
    is restored exactly for the masked pairs that were not forbidden
    before; all other pairs keep their value.  Forbidding pairs that are
    all forbidden already, and allowing pairs none of which is forbidden,
    leave the state as it is. *)
Theorem allow_after_forbid (n : nat) (pd : SCIP_PricerData) (loc : nat)
  (mask : list bool) :
  square n (forbiddenassignments pd) -> loc < n -> n <= length mask ->
  exists pd1 pd2,
    SCIPpricerCpmpForbidAssignments n pd loc mask = Some pd1
    /\ SCIPpricerCpmpAllowAssignments n pd1 loc mask = Some pd2
    /\ (forall m, m < n -> mask !! m = Some true ->
          SCIPpricerCpmpIsAssignmentForbidden pd2 m loc = Some false)
    /\ (forall m, m < n -> mask !! m = Some true ->
          SCIPpricerCpmpIsAssignmentForbidden pd m loc = Some false ->
          SCIPpricerCpmpIsAssignmentForbidden pd2 m loc
          = SCIPpricerCpmpIsAssignmentForbidden pd m loc)
    /\ (forall m l, ~ (l = loc /\ m < n /\ mask !! m = Some true) ->
          SCIPpricerCpmpIsAssignmentForbidden pd2 m l
          = SCIPpricerCpmpIsAssignmentForbidden pd m l)
    /\ ((forall m, m < n -> mask !! m = Some true ->
           SCIPpricerCpmpIsAssignmentForbidden pd m loc = Some true) ->
        pd1 = pd)
    /\ ((forall m, m < n -> mask !! m = Some true ->
           SCIPpricerCpmpIsAssignmentForbidden pd m loc = Some false) ->
        SCIPpricerCpmpAllowAssignments n pd loc mask = Some pd).
Proof.
  intros Hsq Hloc Hlen.
  destruct (forbid_spec n pd loc mask) as (pd1 & Hf & Hsq1 & Hget1);
    [done..|].
  destruct (allow_spec n pd1 loc mask) as (pd2 & Ha & Hsq2 & Hget2);
    [done..|].
  exists pd1, pd2. split; [done|]. split; [done|].
  assert (forall m, m < n -> mask !! m = Some true ->
            SCIPpricerCpmpIsAssignmentForbidden pd2 m loc = Some false)
    as Hmasked.
  { intros m Hm Hmask. rewrite Hget2. by rewrite decide_True. }
  split; [done|]. split.
  { intros m Hm Hmask Hpre. rewrite Hpre. by apply Hmasked. }
  split.
  { intros m l Hnot. rewrite Hget2, Hget1. by rewrite !decide_False. }
  split.
  - intros Hall. symmetry. apply (pricerdata_ext n); [done..|].
    intros m l. rewrite Hget1. case_decide as Hc; [|done].
    destruct Hc as (-> & Hm & Hmask). by apply Hall.
  - intros Hnone.
    destruct (allow_spec n pd loc mask) as (pd' & Ha' & Hsq' & Hget');
      [done..|].
    rewrite Ha'. f_equal. apply (pricerdata_ext n); [done..|].
    intros m l. rewrite Hget'. case_decide as Hc; [|done].
    destruct Hc as (-> & Hm & Hmask). symmetry. by apply Hnone.
Qed.

(** An instance of [allow_after_forbid]: two locations, nothing forbidden,
    median 0 forbidden and allowed again for location 1. *)
Lemma allow_after_forbid_witness :
  let n := 2 in
  let pd := {| forbiddenassignments := [[false; false]; [false; false]] |} in
  let loc := 1 in
  let mask := [true; false] in
  exists pd1 pd2,
    SCIPpricerCpmpForbidAssignments n pd loc mask = Some pd1
    /\ SCIPpricerCpmpAllowAssignments n pd1 loc mask = Some pd2
    /\ (forall m, m < n -> mask !! m = Some true ->
          SCIPpricerCpmpIsAssignmentForbidden pd2 m loc = Some false)
    /\ (forall m, m < n -> mask !! m = Some true ->
          SCIPpricerCpmpIsAssignmentForbidden pd m loc = Some false ->
          SCIPpricerCpmpIsAssignmentForbidden pd2 m loc
          = SCIPpricerCpmpIsAssignmentForbidden pd m loc)
    /\ (forall m l, ~ (l = loc /\ m < n /\ mask !! m = Some true) ->
          SCIPpricerCpmpIsAssignmentForbidden pd2 m l
          = SCIPpricerCpmpIsAssignmentForbidden pd m l)
    /\ ((forall m, m < n -> mask !! m = Some true ->
           SCIPpricerCpmpIsAssignmentForbidden pd m loc = Some true) ->
        pd1 = pd)
    /\ ((forall m, m < n -> mask !! m = Some true ->
           SCIPpricerCpmpIsAssignmentForbidden pd m loc = Some false) ->
        SCIPpricerCpmpAllowAssignments n pd loc mask = Some pd).
Proof.
  apply (allow_after_forbid 2
           {| forbiddenassignments := [[false; false]; [false; false]] |}
           1 [true; false]).
  - split; [reflexivity|]. repeat constructor.
  - lia.
  - simpl. lia.
Defined.

(** C6 as stated fails: median 1 is already forbidden for location 0 when a
    mask containing it is forbidden and allowed again; the pair ends up
    allowed, which is not its value before the forbid call. *)
Lemma allow_after_forbid_counterexample :
  let pd := {| forbiddenassignments := [[false; false]; [true; false]] |} in
  let mask := [false; true] in
  exists pd1 pd2,
    SCIPpricerCpmpForbidAssignments 2 pd 0 mask = Some pd1
    /\ SCIPpricerCpmpAllowAssignments 2 pd1 0 mask = Some pd2
    /\ mask !! 1 = Some true
    /\ SCIPpricerCpmpIsAssignmentForbidden pd 1 0 = Some true
    /\ SCIPpricerCpmpIsAssignmentForbidden pd2 1 0 = Some false.
Proof.
  eexists _, _. repeat split; reflexivity.
Qed.

(** ** Loops *)

Lemma for_loop_inv {S} (P : nat -> S -> Prop) (body : nat -> S -> option S)
  count :
  forall lo s,
    P lo s ->
    (forall i s, lo <= i < lo + count -> P i s ->
                 exists s', body i s = Some s' /\ P (Datatypes.S i) s') ->
    exists s', for_loop body lo count s = Some s' /\ P (lo + count) s'.
Proof.
  induction count as [|k IH]; intros lo s HP Hstep.
  - exists s. rewrite Nat.add_0_r. done.
  - destruct (Hstep lo s) as (s1 & Hbody & HP1); [lia|done|].
    destruct (IH (Datatypes.S lo) s1) as (s' & Hrun & HP'); [done| |].
    { intros i s2 Hi. apply Hstep. lia. }
    exists s'. cbn [for_loop]. rewrite Hbody. simpl.
    split; [done|]. by replace (lo + Datatypes.S k) with (Datatypes.S lo + k) by lia.
Qed.

Lemma odd_mod2 (i : nat) : (i mod 2 =? 1) = Nat.odd i.
Proof.
  rewrite <- Nat.bit0_odd. pose proof (Nat.bit0_mod i) as Hbit.
  destruct (Nat.testbit i 0); cbn [Nat.b2n] in Hbit; by rewrite <- Hbit.
Qed.

(** ** The branching step (branch_semiassign.c) *)

Section PerformBranching.
Context {Real : Type} `{!Numerics Real} `{!Engine Real}.
Variables (n : nat) (pd : SCIP_PricerData) (ids : list nat) (loc : nat).
Hypothesis Hsq : square n (forbiddenassignments pd).
Hypothesis Hloc : loc < n.
Hypothesis Hlen : length ids = n.
Hypothesis Hnodup : NoDup ids.
Hypothesis Hrange : Forall (fun m => m < n) ids.

Lemma branching_inv_init :
  branching_inv n pd ids loc 0 (replicate n false, replicate n false).
Proof.
  unfold branching_inv. simpl.
  split; [by rewrite length_replicate|]. split; [by rewrite length_replicate|].
  split; [intros; lia|]. intros m Hm _. simpl.
  by rewrite !lookup_replicate_2.
Qed.

Lemma branching_inv_step i st :
  i < n -> branching_inv n pd ids loc i st ->
  exists st', performBranching_step pd ids loc i st = Some st'
              /\ branching_inv n pd ids loc (S i) st'.
Proof.
  intros Hi (Hl & Hr & Hdone & Htodo). destruct st as [l r]. simpl in *.
  destruct (lookup_lt_is_Some_2 ids i) as [m Hm]; [lia|].
  assert (m < n) as Hmn by (eapply Forall_lookup_1 in Hrange; eauto).
  destruct (square_mat_get n (forbiddenassignments pd) m loc)
    as [f Hf]; [done..|].
  assert (forall j, j < i -> ids !! j <> Some m) as Hfresh.
  { intros j Hj Hjm. assert (j = i); [|lia].
    by eapply NoDup_lookup. }
  destruct (Htodo m Hmn Hfresh) as [Hlm Hrm].
  assert (forall j m', j < i -> ids !! j = Some m' -> m' <> m) as Hother.
  { intros j m' Hj Hjm -> . by eapply Hfresh. }
  unfold performBranching_step. rewrite Hm. simpl.
  unfold SCIPpricerCpmpIsAssignmentForbidden in *. rewrite Hf. simpl.
  rewrite odd_mod2.
  destruct f; [|destruct (Nat.odd i) eqn:Hodd];
    rewrite ?arr_set_Some by lia; simpl; eexists; (split; [done|]);
    (split; [simpl; by rewrite ?length_insert|]);
    (split; [simpl; by rewrite ?length_insert|]); simpl.
  - split.
    + intros j m' Hj Hjm. destruct (decide (j = i)) as [->|Hne].
      * assert (m' = m) as -> by congruence. exists true. done.
      * apply Hdone; [lia|done].
    + intros m' Hm' Hnone. apply Htodo; [done|]. intros j Hj. apply Hnone. lia.
  - split.
    + intros j m' Hj Hjm. destruct (decide (j = i)) as [->|Hne].
      * assert (m' = m) as -> by congruence. exists false.
        rewrite <- Nat.negb_odd, Hodd. simpl.
        by rewrite !list_lookup_insert_eq by lia.
      * destruct (Hdone j m') as (f' & ? & ? & ?); [lia|done|].
        exists f'. rewrite !list_lookup_insert_ne; [done|..];
          intros ->; eapply Hother; eauto; lia.
    + intros m' Hm' Hnone.
      assert (m' <> m) by (intros ->; by apply (Hnone i); [lia|]).
      rewrite !list_lookup_insert_ne by done.
      apply Htodo; [done|]. intros j Hj. apply Hnone. lia.
  - split.
    + intros j m' Hj Hjm. destruct (decide (j = i)) as [->|Hne].
      * assert (m' = m) as -> by congruence. exists false.
        rewrite <- Nat.negb_odd, Hodd. simpl.
        by rewrite !list_lookup_insert_eq by lia.
      * destruct (Hdone j m') as (f' & ? & ? & ?); [lia|done|].
        exists f'. rewrite !list_lookup_insert_ne; [done|..];
          intros ->; eapply Hother; eauto; lia.
    + intros m' Hm' Hnone.
      assert (m' <> m) by (intros ->; by apply (Hnone i); [lia|]).
      rewrite !list_lookup_insert_ne by done.
      apply Htodo; [done|]. intros j Hj. apply Hnone. lia.
Qed.

Lemma performBranching_spec (row : list Real) :
  exists left right,
    performBranching n pd ids row loc
    = Some [ {| child_node := 0;
                child_cons := SCIPcreateConsSemiassign n loc left 0 |};
             {| child_node := 1;
                child_cons := SCIPcreateConsSemiassign n loc right 1 |} ]
    /\ branching_inv n pd ids loc n (left, right).
Proof.
  destruct (for_loop_inv (branching_inv n pd ids loc)
              (performBranching_step pd ids loc)
              n 0 (replicate n false, replicate n false))
    as ([left right] & Hrun & Hinv).
  - apply branching_inv_init.
  - intros i st Hi. apply branching_inv_step. lia.
  - exists left, right. unfold performBranching. rewrite Hrun. done.
Qed.

End PerformBranching.

Lemma createCons_forbidden n loc (arr : list bool) node :
  length arr = n ->
  cons_forbidden (SCIPcreateConsSemiassign n loc arr node) = arr.
Proof. intros Hlen. simpl. apply take_ge. lia. Qed.

(** C2.  On a permutation of the medians, [performBranching] creates exactly
    two child nodes for the location; no median is forbidden in both, and a
    median is forbidden in one of them exactly if it was not forbidden for
    the location before. *)
Theorem branching_children_partition {Real : Type} `{!Numerics Real}
  `{!Engine Real} (n : nat) (pd : SCIP_PricerData) (ids : list nat)
  (row : list Real) (loc : nat) :
  square n (forbiddenassignments pd) -> loc < n ->
  Permutation ids (seq 0 n) ->
  exists L R,
    performBranching n pd ids row loc = Some [L; R]
    /\ child_node L <> child_node R
    /\ cons_location (child_cons L) = loc
    /\ cons_location (child_cons R) = loc
    /\ length (cons_forbidden (child_cons L)) = n
    /\ length (cons_forbidden (child_cons R)) = n
    /\ forall m, m < n ->
        exists f bl br,
          SCIPpricerCpmpIsAssignmentForbidden pd m loc = Some f
          /\ cons_forbidden (child_cons L) !! m = Some bl
          /\ cons_forbidden (child_cons R) !! m = Some br
          /\ bl && br = false
          /\ bl || br = negb f.
Proof.
  intros Hsq Hloc Hperm.
  assert (length ids = n) as Hlen.
  { by rewrite (Permutation_length Hperm), length_seq. }
  assert (NoDup ids) as Hnodup.
  { rewrite Hperm. apply NoDup_seq. }
  assert (Forall (fun m => m < n) ids) as Hrange.
  { rewrite Hperm. apply Forall_forall. intros m Hm.
    apply elem_of_seq in Hm. lia. }
  destruct (performBranching_spec n pd ids loc Hsq Hloc Hlen Hnodup Hrange row)
    as (left & right & Hrun & Hl & Hr & Hdone & _).
  simpl in Hl, Hr.
  eexists _, _. split; [exact Hrun|]. cbn [child_cons child_node].
  split; [lia|]. split; [done|]. split; [done|].
  rewrite !createCons_forbidden by done.
  split; [done|]. split; [done|].
  intros m Hm.
  assert (m ∈ ids) as Hin.
  { rewrite Hperm. apply elem_of_seq. lia. }
  apply list_elem_of_lookup in Hin as [i Hi].
  assert (i < n) as Hin by (rewrite <- Hlen; by eapply lookup_lt_Some).
  destruct (Hdone i m Hin Hi) as (f & Hf & Hlm & Hrm). simpl in Hlm, Hrm.
  exists f, (negb f && Nat.even i), (negb f && Nat.odd i).
  split; [done|]. split; [done|]. split; [done|].
  rewrite <- Nat.negb_odd. by destruct f, (Nat.odd i).
Qed.

(** An instance of [branching_children_partition]: three medians in the
    order 1, 0, 2, median 2 forbidden already for location 0. *)
Lemma branching_children_partition_witness :
  let pd := {| forbiddenassignments :=
                 [[false; false; false]; [false; false; false];
                  [true; false; false]] |} in
  exists L R,
    performBranching 3 pd [1; 0; 2] [(1 # 2)%Q; (1 # 2)%Q; 0%Q] 0
    = Some [L; R]
    /\ child_node L <> child_node R
    /\ cons_location (child_cons L) = 0
    /\ cons_location (child_cons R) = 0
    /\ length (cons_forbidden (child_cons L)) = 3
    /\ length (cons_forbidden (child_cons R)) = 3
    /\ forall m, m < 3 ->
        exists f bl br,
          SCIPpricerCpmpIsAssignmentForbidden pd m 0 = Some f
          /\ cons_forbidden (child_cons L) !! m = Some bl
          /\ cons_forbidden (child_cons R) !! m = Some br
          /\ bl && br = false
          /\ bl || br = negb f.
Proof.
  apply (branching_children_partition (Real := Q) 3).
  - split; [reflexivity|]. repeat constructor.
  - lia.
  - simpl. apply perm_swap.
Defined.

(** ** The assignment matrix (branch_semiassign.c) *)

Section ComputeAssignments.
Context {Real : Type} `{!Numerics Real} `{!Engine Real}.
Variables (n : nat) (sol : SCIP_VAR Real -> Real).

Lemma square_replicate (x : Real) : square n (replicate n (replicate n x)).
Proof.
  split; [by rewrite length_replicate|].
  apply Forall_replicate. by rewrite length_replicate.
Qed.

Lemma mat_add_spec M i j x :
  square n M -> i < n -> j < n ->
  exists M', mat_add M i j x = Some M' /\ square n M'
    /\ forall i' j' a, mat_get M i' j' = Some a ->
         mat_get M' i' j'
         = Some (if decide (i' = i /\ j' = j) then real_add a x else a).
Proof.
  intros Hsq Hi Hj.
  destruct (square_lookup n M i Hsq Hi) as (row & Hrow & Hlen).
  destruct (lookup_lt_is_Some_2 row j) as [a0 Ha0]; [lia|].
  exists (<[i:=<[j:=real_add a0 x]> row]> M).
  unfold mat_add. unfold mat_get at 1. rewrite Hrow. simpl. rewrite Ha0. simpl.
  rewrite (mat_set_Some M i j _ row) by (done || lia).
  split; [done|]. split.
  { apply square_insert; [done|]. by rewrite length_insert. }
  intros i' j' a Ha. rewrite mat_get_set by (done || lia).
  case_decide as Hc; [|done]. destruct Hc as [-> ->].
  unfold mat_get in Ha. rewrite Hrow in Ha. simpl in Ha. congruence.
Qed.

(** The loop over the members of one variable. *)
Lemma members_loop_spec cluster x members :
  cluster < n ->
  forall M,
    square n M -> Forall (fun l => l < n) members -> NoDup members ->
    exists M',
      foldlM (fun A member => mat_add A member cluster x) M members = Some M'
      /\ square n M'
      /\ forall i j a, mat_get M i j = Some a ->
           mat_get M' i j
           = Some (if decide (j = cluster /\ i ∈ members)
                   then real_add a x else a).
Proof.
  intros Hc. induction members as [|mem rest IH]; intros M Hsq Hrange Hnd.
  - exists M. split; [done|]. split; [done|]. intros i j a Ha.
    rewrite decide_False; [done|]. intros [_ Hin]. by apply elem_of_nil in Hin.
  - apply Forall_cons in Hrange as [Hmem Hrange].
    apply NoDup_cons in Hnd as [Hfresh Hnd].
    destruct (mat_add_spec M mem cluster x Hsq Hmem Hc)
      as (M1 & Hadd & Hsq1 & Hget1).
    destruct (IH M1 Hsq1 Hrange Hnd) as (M' & Hrun & Hsq' & Hget').
    exists M'. cbn [foldlM]. rewrite Hadd. simpl.
    split; [done|]. split; [done|]. intros i j a Ha.
    rewrite (Hget' i j _ (Hget1 i j a Ha)). f_equal.
    destruct (decide (i = mem)) as [->|Hne].
    + destruct (decide (j = cluster)) as [->|Hnej].
      * rewrite (decide_True (P := mem = mem /\ cluster = cluster)) by done.
        rewrite (decide_False (P := cluster = cluster /\ mem ∈ rest))
          by naive_solver.
        rewrite decide_True; [done|]. split; [done|]. apply elem_of_cons. auto.
      * rewrite !decide_False; naive_solver.
    + rewrite (decide_False (P := i = mem /\ j = cluster)) by naive_solver.
      repeat case_decide; try done; exfalso.
      * match goal with H : ~ _ |- _ => apply H end.
        split; [naive_solver|]. apply elem_of_cons. naive_solver.
      * match goal with H : ~ (_ /\ _ ∈ rest) |- _ => apply H end.
        match goal with H : _ /\ _ ∈ _ :: _ |- _ => destruct H as [? Hin] end.
        apply elem_of_cons in Hin. naive_solver.
Qed.

(** The loop over the variables. *)
Lemma vars_loop_spec vars :
  forall M,
    square n M -> Forall (valid_var n) vars ->
    exists M',
      foldlM (fun assignments var =>
                foldlM (fun assignments member =>
                          mat_add assignments member (SCIPvarGetMedian var)
                            (sol var))
                  assignments (SCIPvarGetLocations var)) M vars = Some M'
      /\ square n M'
      /\ forall i j a, mat_get M i j = Some a ->
           mat_get M' i j
           = Some (foldl real_add a
                     (map sol (filter (fun var =>
                                         SCIPvarGetMedian var = j
                                         /\ i ∈ SCIPvarGetLocations var)
                                 vars))).
Proof.
  induction vars as [|var rest IH]; intros M Hsq Hvalid.
  - exists M. done.
  - apply Forall_cons in Hvalid as [(Hmed & Hrange & Hnd) Hvalid].
    destruct (members_loop_spec (SCIPvarGetMedian var) (sol var)
                (SCIPvarGetLocations var) Hmed M Hsq Hrange Hnd)
      as (M1 & Hinner & Hsq1 & Hget1).
    destruct (IH M1 Hsq1 Hvalid) as (M' & Hrun & Hsq' & Hget').
    exists M'. cbn [foldlM]. rewrite Hinner. simpl.
    split; [done|]. split; [done|]. intros i j a Ha.
    rewrite (Hget' i j _ (Hget1 i j a Ha)). f_equal.
    rewrite filter_cons.
    destruct (decide (SCIPvarGetMedian var = j
                      /\ i ∈ SCIPvarGetLocations var)) as [Hp|Hp].
    + rewrite decide_True by naive_solver. done.
    + rewrite decide_False by naive_solver. done.
Qed.

Lemma computeAssignments_total vars :
  Forall (valid_var n) vars ->
  exists A, computeAssignments n vars sol = Some A /\ square n A.
Proof.
  intros Hvalid.
  destruct (vars_loop_spec vars (replicate n (replicate n real_0))
              (square_replicate real_0) Hvalid) as (A & Hrun & Hsq & _).
  exists A. split; [exact Hrun|done].
Qed.

End ComputeAssignments.

(** C8.  For valid variable data, [computeAssignments] returns a matrix in
    which the entry of location [i] and median [j] is the sum of the
    solution values of the variables with median [j] whose members include
    [i]; the sum over no variable is 0. *)
Theorem assignments_are_column_sums {Real : Type} `{!Numerics Real}
  `{!Engine Real} (n : nat) (vars : list (SCIP_VAR Real))
  (sol : SCIP_VAR Real -> Real) :
  Forall (valid_var n) vars ->
  exists A,
    computeAssignments n vars sol = Some A
    /\ square n A
    /\ forall i j, i < n -> j < n ->
         mat_get A i j = Some (assignment_value vars sol i j).
Proof.
  intros Hvalid.
  destruct (vars_loop_spec n sol vars (replicate n (replicate n real_0))
              (square_replicate n real_0) Hvalid) as (A & Hrun & Hsq & Hget).
  exists A. split; [exact Hrun|]. split; [done|]. intros i j Hi Hj.
  unfold assignment_value. apply Hget.
  unfold mat_get. rewrite lookup_replicate_2 by done. simpl.
  by rewrite lookup_replicate_2.
Qed.

(** An instance of [assignments_are_column_sums] on the sample columns. *)
Lemma assignments_are_column_sums_witness :
  exists A,
    computeAssignments 3 Sample.vars Sample.sol = Some A
    /\ square 3 A
    /\ forall i j, i < 3 -> j < 3 ->
         mat_get A i j = Some (assignment_value Sample.vars Sample.sol i j).
Proof.
  apply (assignments_are_column_sums 3 Sample.vars Sample.sol).
  apply (bool_decide_unpack _). vm_compute. reflexivity.
Defined.

(** ** The selection of the location (branch_semiassign.c) *)

Lemma even_mod2 (i : nat) : (i mod 2 =? 0) = Nat.even i.
Proof.
  rewrite <- Nat.negb_odd, <- odd_mod2.
  pose proof (Nat.mod_upper_bound i 2).
  destruct (i mod 2) as [|[|k]]; [done|done|lia].
Qed.

Section ChooseLocation.
Context {Real : Type} `{!Numerics Real} `{!Engine Real}.
Variables (n : nat) (A : list (list Real)).
Hypothesis HA : square n A.

Lemma nfrac_snoc (l : list Real) a :
  nfrac (l ++ [a])
  = if SCIPisFeasIntegral a then nfrac l else nfrac l + 1.
Proof.
  unfold nfrac. rewrite filter_app, length_app, filter_cons, filter_nil.
  destruct (SCIPisFeasIntegral a); simpl; [|done].
  by rewrite Nat.add_0_r.
Qed.

Lemma totfrac_snoc (l : list Real) a :
  totfrac (l ++ [a])
  = if SCIPisFeasIntegral a then totfrac l else real_add (totfrac l) a.
Proof.
  unfold totfrac. rewrite filter_app, foldl_app, filter_cons, filter_nil.
  by destruct (SCIPisFeasIntegral a).
Qed.

Lemma halffrac_snoc (l : list Real) a :
  halffrac (l ++ [a])
  = if SCIPisFeasIntegral a then halffrac l
    else if Nat.even (length l) then real_add (halffrac l) a
         else halffrac l.
Proof.
  unfold halffrac. rewrite imap_app, filter_app, map_app, foldl_app.
  simpl. rewrite Nat.add_0_r, filter_cons, filter_nil. simpl.
  by destruct (SCIPisFeasIntegral a), (Nat.even (length l)).
Qed.

(** The inner loop computes the three quantities of the row. *)
Lemma chooseLocation_medians_spec i row :
  A !! i = Some row ->
  chooseLocation_medians n A i = Some (nfrac row, totfrac row, halffrac row).
Proof.
  intros Hrow.
  assert (length row = n) as Hlen.
  { destruct HA as [_ Hrows]. eapply Forall_lookup_1 in Hrows; eauto. }
  destruct (for_loop_inv
              (fun k st => st = (nfrac (take k row), totfrac (take k row),
                                 halffrac (take k row)))
              (fun median '(nfracmedians, totfrac, halffrac) =>
                 a ← mat_get A i median;
                 if negb (SCIPisFeasIntegral a) then
                   Some (nfracmedians + 1, real_add totfrac a,
                         if median mod 2 =? 0 then real_add halffrac a
                         else halffrac)
                 else Some (nfracmedians, totfrac, halffrac))
              n 0 (0, real_0, real_0)) as (st & Hrun & Hst).
  - done.
  - intros k st Hk ->.
    destruct (lookup_lt_is_Some_2 row k) as [a Ha]; [lia|].
    unfold mat_get. rewrite Hrow. simpl. rewrite Ha. simpl.
    rewrite (take_S_r row k a Ha).
    rewrite nfrac_snoc, totfrac_snoc, halffrac_snoc, even_mod2.
    rewrite length_take_le by lia.
    destruct (SCIPisFeasIntegral a); simpl; eexists; split; done.
  - unfold chooseLocation_medians. rewrite Hrun, Hst. simpl.
    by rewrite take_ge by lia.
Qed.

Section Tie.
Variable better : Real -> Real -> Prop.
Hypothesis better_refl : forall d, better d d.
Hypothesis better_keep : forall d d',
  SCIPisFeasLT d d' = false -> better d d'.
Hypothesis better_replace : forall d d' d'',
  SCIPisFeasLT d' d'' = true -> better d d'' -> better d d'.

Lemma choose_inv_step i st :
  i < n -> choose_inv better A i st ->
  exists st', chooseLocation_step n A i st = Some st'
              /\ choose_inv better A (S i) st'.
Proof.
  intros Hi Hinv. destruct st as [[location maxn] mind].
  destruct Hinv as [Hmax Hsel].
  destruct (square_lookup n A i HA Hi) as (row & Hrow & Hlen).
  unfold chooseLocation_step.
  rewrite (chooseLocation_medians_spec i row Hrow). simpl.
  fold (fracdiff row).
  assert (forall j row', j < S i -> A !! j = Some row' ->
            j < i \/ (j = i /\ row' = row)) as Hsplit.
  { intros j row' Hj Hj'. destruct (decide (j = i)) as [->|]; [|left; lia].
    right. split; [done|]. congruence. }
  destruct (maxn <? nfrac row) eqn:Hgt; simpl.
  { apply Nat.ltb_lt in Hgt. eexists. split; [done|]. split.
    - intros j row' Hj Hj'. destruct (Hsplit j row' Hj Hj') as [?|[-> ->]];
        [|done]. pose proof (Hmax j row' ltac:(done) Hj'). lia.
    - right. exists i, row. repeat split; [lia|done|lia|].
      intros j row' Hj Hj' Heq.
      destruct (Hsplit j row' Hj Hj') as [?|[-> ->]]; [|done].
      pose proof (Hmax j row' ltac:(done) Hj'). lia. }
  apply Nat.ltb_ge in Hgt.
  destruct ((0 <? nfrac row) && (nfrac row =? maxn)
            && SCIPisFeasLT (fracdiff row) mind) eqn:Htie.
  { apply andb_prop in Htie as [Htie Hlt].
    apply andb_prop in Htie as [Hpos Heq].
    apply Nat.ltb_lt in Hpos. apply Nat.eqb_eq in Heq.
    eexists. split; [done|]. split.
    - intros j row' Hj Hj'. destruct (Hsplit j row' Hj Hj') as [?|[-> ->]];
        [|done]. pose proof (Hmax j row' ltac:(done) Hj'). lia.
    - right. exists i, row. repeat split; [lia|done|lia|].
      intros j row' Hj Hj' Heq'.
      destruct (Hsplit j row' Hj Hj') as [?|[-> ->]]; [|done].
      destruct Hsel as [[Hzero _]|(l & rowl & _ & _ & _ & _ & _ & _ & Hbest)];
        [lia|].
      eapply better_replace; [exact Hlt|]. apply (Hbest j row'); [done..|lia]. }
  eexists. split; [done|]. split.
  - intros j row' Hj Hj'. destruct (Hsplit j row' Hj Hj') as [?|[-> ->]];
      [|done]. by apply (Hmax j row').
  - destruct Hsel as [[Hzero ->]|(l & rowl & -> & Hl & Hrowl & Hn & Hpos & -> & Hbest)].
    + by left.
    + right. exists l, rowl. repeat split; [lia|done..|].
      intros j row' Hj Hj' Heq'.
      destruct (Hsplit j row' Hj Hj') as [?|[-> ->]]; [by apply (Hbest j row')|].
      apply better_keep.
      apply andb_false_iff in Htie as [Htie|Htie]; [|done].
      apply andb_false_iff in Htie as [Htie|Htie].
      * apply Nat.ltb_ge in Htie. lia.
      * apply Nat.eqb_neq in Htie. lia.
Qed.

Lemma chooseLocation_inv :
  exists location maxn mind,
    chooseLocation n A = Some location
    /\ choose_inv better A n (location, maxn, mind).
Proof.
  destruct (for_loop_inv (choose_inv better A) (chooseLocation_step n A) n 0
              ((-1)%Z, 0, SCIPinfinity)) as ([[location maxn] mind] & Hrun & Hinv).
  - split; [intros; lia|]. by left.
  - intros i st Hi. apply choose_inv_step. lia.
  - exists location, maxn, mind. unfold chooseLocation. rewrite Hrun. done.
Qed.

End Tie.
End ChooseLocation.

(** ** The reference instance *)

Section ExactOrder.
#[local] Open Scope Q_scope.

Lemma quot_ge_1 a b : 1 <= Exact.quot a b.
Proof. apply Q.le_max_r. Qed.

Lemma quot_sub a b c : Exact.quot a c <= Exact.quot a b + Exact.quot b c.
Proof.
  pose proof (quot_ge_1 a b). pose proof (quot_ge_1 b c).
  unfold Exact.quot at 1. apply Q.max_lub; [apply Q.max_lub|].
  - assert (Exact.ABS a <= Exact.quot a b).
    { unfold Exact.quot. eapply Qle_trans; [|apply Q.le_max_l]. apply Q.le_max_l. }
    lra.
  - assert (Exact.ABS c <= Exact.quot b c).
    { unfold Exact.quot. eapply Qle_trans; [|apply Q.le_max_l]. apply Q.le_max_r. }
    lra.
  - lra.
Qed.

Lemma exact_feasLT a b :
  SCIPisFeasLT a b = true <-> a - b < - Exact.feastol * Exact.quot a b.
Proof.
  pose proof (quot_ge_1 a b) as Hs.
  assert (0 < Exact.quot a b) as Hpos by lra.
  change (SCIPisFeasLT a b)
    with (negb (Qle_bool (- Exact.feastol) ((a - b) / Exact.quot a b))).
  rewrite negb_true_iff, <- not_true_iff_false, Qle_bool_iff.
  split.
  - intros Hn. apply Qnot_le_lt in Hn.
    apply (Qmult_lt_r _ _ (Exact.quot a b) Hpos) in Hn.
    assert ((a - b) / Exact.quot a b * Exact.quot a b == a - b) as Heq.
    { field. lra. }
    rewrite Heq in Hn. exact Hn.
  - intros Hlt. apply Qlt_not_le. apply Qlt_shift_div_r; [done|]. exact Hlt.
Qed.

Lemma exact_feasLT_order : FeasLTOrder (Real := Q).
Proof.
  assert (0 < Exact.feastol) as Htol by reflexivity.
  split.
  - intros x. apply not_true_iff_false. rewrite exact_feasLT.
    pose proof (quot_ge_1 x x).
    assert (0 <= Exact.feastol * Exact.quot x x) by (apply Qmult_le_0_compat; lra).
    lra.
  - intros x y z Hxy Hyz. apply exact_feasLT in Hxy, Hyz. apply exact_feasLT.
    pose proof (quot_sub x y z) as Hsub.
    assert (Exact.feastol * Exact.quot x z
            <= Exact.feastol * (Exact.quot x y + Exact.quot y z)) as Hmul.
    { apply Qmult_le_l; [done|]. exact Hsub. }
    lra.
Qed.

End ExactOrder.

(** C4 (as amended).  [chooseLocation] returns -1 if no row has a fractional
    entry; otherwise it returns a location whose row has the largest number
    of fractional entries, and among the rows with that number none has a
    value of |halffrac - 0.5 totfrac| that is smaller, in the sense of
    [SCIPisFeasLT], than that of the chosen row. *)
Theorem chooseLocation_selects {Real : Type} `{!Numerics Real}
  `{!Engine Real} (order : FeasLTOrder) (n : nat) (A : list (list Real)) :
  square n A ->
  exists location,
    chooseLocation n A = Some location
    /\ ((location = (-1)%Z
         /\ forall i row, A !! i = Some row -> nfrac row = 0)
        \/ exists l row,
             location = Z.of_nat l /\ A !! l = Some row /\ 0 < nfrac row
             /\ (forall i row', A !! i = Some row' ->
                   nfrac row' <= nfrac row)
             /\ (forall i row', A !! i = Some row' ->
                   nfrac row' = nfrac row ->
                   SCIPisFeasLT (fracdiff row') (fracdiff row) = false)).
Proof.
  intros HA.
  destruct (chooseLocation_inv n A HA
              (fun d d' => SCIPisFeasLT d d' = false))
    as (location & maxn & mind & Hrun & Hmax & Hsel).
  - apply feasLT_irrefl.
  - done.
  - intros d d' d'' Hlt Hkeep. apply not_true_iff_false. intros Hd.
    apply not_true_iff_false in Hkeep. apply Hkeep.
    by apply (feasLT_trans d d' d'').
  - assert (forall i (row : list Real), A !! i = Some row -> i < n) as Hlt.
    { intros i row Hi. destruct HA as [<- _]. by eapply lookup_lt_Some. }
    exists location. split; [done|].
    destruct Hsel as [[-> ->]|(l & row & -> & Hl & Hrow & <- & Hpos & -> & Hbest)].
    + left. split; [done|]. intros i row Hi.
      pose proof (Hmax i row (Hlt i row Hi) Hi). lia.
    + right. exists l, row. repeat split; [done..| |].
      * intros i row' Hi. by apply (Hmax i row'); [eapply Hlt|].
      * intros i row' Hi. by apply (Hbest i row'); [eapply Hlt|].
Qed.

(** An instance of [chooseLocation_selects] with exact rationals. *)
Lemma chooseLocation_selects_witness :
  let A := [[1; 1 # 2; 1 # 2]; [1; 0; 0]; [1; 0; 0]]%Q in
  exists location,
    chooseLocation 3 A = Some location
    /\ ((location = (-1)%Z
         /\ forall i row, A !! i = Some row -> nfrac row = 0)
        \/ exists l row,
             location = Z.of_nat l /\ A !! l = Some row /\ 0 < nfrac row
             /\ (forall i row', A !! i = Some row' ->
                   nfrac row' <= nfrac row)
             /\ (forall i row', A !! i = Some row' ->
                   nfrac row' = nfrac row ->
                   SCIPisFeasLT (fracdiff row') (fracdiff row) = false)).
Proof.
  apply (chooseLocation_selects exact_feasLT_order 3).
  split; [reflexivity|]. repeat constructor.
Defined.

(** C4 as stated fails: both rows have two fractional entries, the second
    row has the strictly smaller value of |halffrac - 0.5 totfrac|, and the
    first row is chosen, because the difference is within the tolerance of
    [SCIPisFeasLT]. *)
Lemma chooseLocation_counterexample :
  let row0 := [5000004 # 10000000; 1 # 2]%Q in
  let row1 := [1 # 2; 1 # 2]%Q in
  chooseLocation 2 [row0; row1] = Some 0%Z
  /\ nfrac row0 = 2 /\ nfrac row1 = 2
  /\ (fracdiff row1 < fracdiff row0)%Q.
Proof. vm_compute. repeat split; reflexivity. Qed.

(** ** Sorting the medians (branch_semiassign.c) *)

Section SortMedians.
Context {Real : Type} `{!Numerics Real} `{!Engine Real}.
Variables (n : nat) (sids0 : list (list nat)) (A0 : list (list Real)).
Hypothesis HA0 : length A0 = n.
Hypothesis Hsids0 : length sids0 = n.

Lemma sortMedians_spec :
  exists sids A,
    sortMedians n sids0 A0 = Some (sids, A)
    /\ sort_inv n sids0 A0 n (sids, A).
Proof.
  destruct (for_loop_inv (sort_inv n sids0 A0)
              (fun i '(sortedids, assignments) =>
                 keys ← assignments !! i;
                 ids ← sortedids !! i;
                 let '(keys', ids') := SCIPsortDownRealInt keys ids n in
                 Some (<[i:=ids']> sortedids, <[i:=keys']> assignments))
              n 0 (sids0, A0)) as ([sids A] & Hrun & Hinv).
  - split; [done|]. split; [done|]. split; [intros; lia|]. done.
  - intros i [sids A] Hi (Hl1 & Hl2 & Hdone & Htodo). simpl in *.
    destruct (Htodo i) as [Hsi HAi]; [lia|].
    destruct (lookup_lt_is_Some_2 A0 i) as [keys Hkeys]; [lia|].
    destruct (lookup_lt_is_Some_2 sids0 i) as [ids Hids]; [lia|].
    rewrite HAi, Hkeys. simpl. rewrite Hsi, Hids. simpl.
    destruct (SCIPsortDownRealInt keys ids n) as [keys' ids'] eqn:Hsort.
    eexists. split; [done|].
    split; [simpl; by rewrite length_insert|].
    split; [simpl; by rewrite length_insert|]. simpl. split.
    + intros j keysj idsj Hj Hkj Hij.
      destruct (decide (j = i)) as [->|Hne].
      * assert (keysj = keys) as -> by congruence.
        assert (idsj = ids) as -> by congruence.
        rewrite Hsort. simpl.
        rewrite !list_lookup_insert_eq by lia. done.
      * rewrite !list_lookup_insert_ne by done.
        apply Hdone; [lia|done..].
    + intros j Hj. rewrite !list_lookup_insert_ne by lia. apply Htodo. lia.
  - exists sids, A. split; [exact Hrun|done].
Qed.

End SortMedians.

Lemma nfrac_Permutation {Real} `{!Numerics Real} (row row' : list Real) :
  Permutation row row' -> nfrac row = nfrac row'.
Proof. intros Hp. unfold nfrac. by rewrite Hp. Qed.

Lemma nfrac_zero {Real} `{!Numerics Real} (row : list Real) :
  nfrac row = 0 <-> Forall (fun a => SCIPisFeasIntegral a = true) row.
Proof.
  unfold nfrac. rewrite length_zero_iff_nil. split.
  - intros Hnil. apply Forall_forall. intros a Ha.
    destruct (SCIPisFeasIntegral a) eqn:Hint; [done|].
    assert (a ∈ filter (fun a => SCIPisFeasIntegral a = false) row) as Hin.
    { apply list_elem_of_filter. done. }
    rewrite Hnil in Hin. by apply elem_of_nil in Hin.
  - intros Hall. induction Hall as [|a row Ha Hall IH]; [done|].
    rewrite filter_cons, decide_False by congruence. done.
Qed.

Lemma seq_permutation_facts n (ids : list nat) :
  Permutation ids (seq 0 n) ->
  length ids = n /\ NoDup ids /\ Forall (fun m => m < n) ids.
Proof.
  intros Hperm. split; [|split].
  - by rewrite (Permutation_length Hperm), length_seq.
  - rewrite Hperm. apply NoDup_seq.
  - rewrite Hperm. apply Forall_forall. intros m Hm.
    apply elem_of_seq in Hm. lia.
Qed.

(** ** The branching callback (branch_semiassign.c) *)

Section BranchExeclp.
Context {Real : Type} `{!Numerics Real} `{!Engine Real}.
Variables (n : nat) (vars : list (SCIP_VAR Real))
  (sol : SCIP_VAR Real -> Real) (pd : SCIP_PricerData).
Hypothesis Hvalid : Forall (valid_var n) vars.
Hypothesis Hpd : square n (forbiddenassignments pd).
Hypothesis Hsort : sort_contract n.

(** The run of the callback up to the choice of the location. *)
Lemma branchExeclp_facts :
  exists A sids A' location maxn mind,
    computeAssignments n vars sol = Some A
    /\ square n A
    /\ sortMedians n (replicate n (seq 0 n)) A = Some (sids, A')
    /\ (forall i row, A !! i = Some row ->
          sids !! i = Some (SCIPsortDownRealInt row (seq 0 n) n).2
          /\ A' !! i = Some (SCIPsortDownRealInt row (seq 0 n) n).1)
    /\ square n A'
    /\ chooseLocation n A' = Some location
    /\ choose_inv (fun _ _ => True) A' n (location, maxn, mind).
Proof.
  destruct (computeAssignments_total n sol vars Hvalid) as (A & HA & HsqA).
  destruct (sortMedians_spec n (replicate n (seq 0 n)) A)
    as (sids & A' & Hrun & Hl1 & Hl2 & Hdone & _).
  { by destruct HsqA. }
  { by rewrite length_replicate. }
  simpl in Hl1, Hl2.
  assert (forall i row, A !! i = Some row ->
            sids !! i = Some (SCIPsortDownRealInt row (seq 0 n) n).2
            /\ A' !! i = Some (SCIPsortDownRealInt row (seq 0 n) n).1)
    as Hrows.
  { intros i row Hi.
    assert (i < n) by (destruct HsqA as [<- _]; by eapply lookup_lt_Some).
    apply (Hdone i row (seq 0 n)); [done..|]. by apply lookup_replicate_2. }
  assert (square n A') as HsqA'.
  { split; [destruct HsqA; lia|]. apply Forall_lookup_2. intros i row' Hi.
    assert (i < n) as Hin.
    { destruct HsqA as [HlenA _]. rewrite <- HlenA, <- Hl2.
      by eapply lookup_lt_Some. }
    destruct (square_lookup n A i HsqA Hin) as (row & Hrow & Hlen).
    destruct (Hrows i row Hrow) as [_ HA'i].
    assert (row' = (SCIPsortDownRealInt row (seq 0 n) n).1) as ->
      by congruence.
    destruct (Hsort row (seq 0 n)) as [Hperm _]; [done|by rewrite length_seq|].
    by rewrite (Permutation_length Hperm). }
  destruct (chooseLocation_inv n A' HsqA' (fun _ _ => True))
    as (location & maxn & mind & Hchoose & Hinv); [done..|].
  exists A, sids, A', location, maxn, mind. done.
Qed.

(** The callback when the chosen location is [l]. *)
Lemma branchExeclp_branches A sids A' l row :
  computeAssignments n vars sol = Some A ->
  sortMedians n (replicate n (seq 0 n)) A = Some (sids, A') ->
  chooseLocation n A' = Some (Z.of_nat l) ->
  A !! l = Some row ->
  sids !! l = Some (SCIPsortDownRealInt row (seq 0 n) n).2 ->
  A' !! l = Some (SCIPsortDownRealInt row (seq 0 n) n).1 ->
  exists left right,
    branchExeclpSemiassign n vars sol pd
    = Some (SCIP_BRANCHED,
            [ {| child_node := 0;
                 child_cons := SCIPcreateConsSemiassign n l left 0 |};
              {| child_node := 1;
                 child_cons := SCIPcreateConsSemiassign n l right 1 |} ])
    /\ branching_inv n pd (SCIPsortDownRealInt row (seq 0 n) n).2 l n
         (left, right).
Proof.
  intros HA Hrun Hchoose Hrow Hsids HA'.
  assert (l < n) as Hl.
  { destruct (computeAssignments_total n sol vars Hvalid)
      as (A2 & HA2 & [HlenA _]).
    assert (A2 = A) as -> by congruence.
    rewrite <- HlenA. by eapply lookup_lt_Some. }
  assert (length row = n) as Hlen.
  { destruct (computeAssignments_total n sol vars Hvalid)
      as (A2 & HA2 & [_ Hrows]).
    assert (A2 = A) as -> by congruence.
    eapply Forall_lookup_1 in Hrows; eauto. }
  destruct (Hsort row (seq 0 n)) as [_ Hperm]; [done|by rewrite length_seq|].
  destruct (seq_permutation_facts n _ Hperm) as (Hlenids & Hnodup & Hrange).
  destruct (performBranching_spec n pd _ l Hpd Hl Hlenids Hnodup Hrange
              (SCIPsortDownRealInt row (seq 0 n) n).1)
    as (left & right & Hbranch & Hinv).
  exists left, right. split; [|done].
  unfold branchExeclpSemiassign. rewrite HA. simpl. rewrite Hrun. simpl.
  rewrite Hchoose. simpl.
  assert ((Z.of_nat l =? -1)%Z = false) as -> by (apply Z.eqb_neq; lia).
  rewrite Nat2Z.id, Hsids. simpl. rewrite HA'. simpl.
  rewrite Hbranch. done.
Qed.

End BranchExeclp.

(** The sorting routine of the reference instance meets the contract. *)

Lemma insert_down_Permutation k id l :
  Permutation (Exact.insert_down k id l) ((k, id) :: l).
Proof.
  induction l as [|[k' id'] l IH]; simpl; [done|].
  destruct (Qle_bool k k'); [|done].
  rewrite IH. apply perm_swap.
Qed.

Lemma insertion_Permutation (ps acc : list (Q * nat)) :
  Permutation
    (foldl (fun acc p => Exact.insert_down p.1 p.2 acc) acc ps) (ps ++ acc).
Proof.
  revert acc. induction ps as [|[k id] ps IH]; intros acc; simpl; [done|].
  rewrite IH, insert_down_Permutation. simpl.
  by rewrite Permutation_middle.
Qed.

Lemma exact_sort_contract n : sort_contract (Real := Q) n.
Proof.
  intros keys ids Hk Hi. simpl. unfold Exact.sortDown. simpl.
  rewrite !take_ge, !drop_ge, !app_nil_r by lia.
  pose proof (insertion_Permutation (zip keys ids) []) as Hperm.
  rewrite app_nil_r in Hperm. split.
  - rewrite Hperm. rewrite fst_zip by lia. done.
  - rewrite Hperm. rewrite snd_zip by lia. done.
Qed.

(** The joint contract of the sorting routine gives the two separate
    permutations. *)
Lemma sort_down_contract_sort {Real} `{!RealOrder Real} `{!Engine Real} n :
  sort_down_contract n -> sort_contract n.
Proof.
  intros Hdown keys ids Hk Hi.
  destruct (Hdown keys ids Hk Hi) as (Hl1 & Hl2 & Hperm & _).
  split.
  - pose proof (fmap_Permutation fst _ _ Hperm) as H1.
    by rewrite !fst_zip in H1 by lia.
  - pose proof (fmap_Permutation snd _ _ Hperm) as H2.
    by rewrite !snd_zip in H2 by lia.
Qed.

(** After sorting a row together with the identity array, the key at a
    position is the entry of the row at the median found there. *)
Lemma sorted_key_of_id {Real} `{!RealOrder Real} `{!Engine Real} n
  (row : list Real) i m :
  sort_down_contract n -> length row = n ->
  (SCIPsortDownRealInt row (seq 0 n) n).2 !! i = Some m ->
  (SCIPsortDownRealInt row (seq 0 n) n).1 !! i = row !! m /\ m < n.
Proof.
  intros Hdown Hlen Hi.
  destruct (Hdown row (seq 0 n) Hlen (length_seq _ _))
    as (Hl1 & Hl2 & Hperm & _).
  destruct (lookup_lt_is_Some_2 (SCIPsortDownRealInt row (seq 0 n) n).1 i)
    as [a Ha].
  { rewrite Hl1, <- Hl2. by eapply lookup_lt_Some. }
  assert ((a, m) ∈ zip (SCIPsortDownRealInt row (seq 0 n) n).1
                       (SCIPsortDownRealInt row (seq 0 n) n).2) as Hin.
  { apply list_elem_of_lookup. exists i. apply lookup_zip_with_Some.
    by exists a, m. }
  rewrite Hperm in Hin.
  apply list_elem_of_lookup in Hin as [k Hk].
  apply lookup_zip_with_Some in Hk as (x & y & Heq & Hx & Hy).
  injection Heq as -> ->.
  apply lookup_seq in Hy as [-> Hlt]. simpl. by rewrite Ha, Hx.
Qed.

(** The insertion sort of the reference instance meets the joint
    contract. *)
Lemma StronglySorted_lookup_lt {A} (R : relation A) (l : list A) i j a b :
  StronglySorted R l -> i < j -> l !! i = Some a -> l !! j = Some b ->
  R a b.
Proof.
  intros Hs. revert i j. induction Hs as [|x l Hs IH Hall]; intros i j Hij.
  { by rewrite lookup_nil. }
  destruct j as [|j]; [lia|]. destruct i as [|i]; simpl.
  - intros [= ->] Hb. eapply Forall_lookup_1 in Hall; eauto.
  - apply IH. lia.
Qed.

Lemma insert_down_sorted k id (l : list (Q * nat)) :
  StronglySorted (fun p q : Q * nat => Qle_bool q.1 p.1 = true) l ->
  StronglySorted (fun p q : Q * nat => Qle_bool q.1 p.1 = true)
    (Exact.insert_down k id l).
Proof.
  induction 1 as [|[k' id'] l Hs IH Hall]; simpl.
  { repeat constructor. }
  destruct (Qle_bool k k') eqn:Hle.
  - constructor; [done|].
    rewrite insert_down_Permutation. by constructor.
  - assert (Qle_bool k' k = true) as Hge.
    { apply Qle_bool_iff. destruct (Qlt_le_dec k' k) as [Hlt|Hge].
      - by apply Qlt_le_weak.
      - apply Qle_bool_iff in Hge. congruence. }
    constructor; [by constructor|]. constructor; [done|].
    eapply Forall_impl; [exact Hall|]. intros [k2 id2] H2. simpl in *.
    apply Qle_bool_iff. apply Qle_bool_iff in H2, Hge.
    by eapply Qle_trans.
Qed.

Lemma insertion_sorted (ps acc : list (Q * nat)) :
  StronglySorted (fun p q : Q * nat => Qle_bool q.1 p.1 = true) acc ->
  StronglySorted (fun p q : Q * nat => Qle_bool q.1 p.1 = true)
    (foldl (fun acc p => Exact.insert_down p.1 p.2 acc) acc ps).
Proof.
  revert acc. induction ps as [|[k id] ps IH]; intros acc Hacc; [done|].
  simpl. apply IH. by apply insert_down_sorted.
Qed.

Lemma exact_sort_down_contract n : sort_down_contract (Real := Q) n.
Proof.
  intros keys ids Hk Hi. simpl. unfold Exact.sortDown. simpl.
  rewrite !take_ge, !drop_ge, !app_nil_r by lia.
  pose proof (insertion_Permutation (zip keys ids) []) as Hperm.
  rewrite app_nil_r in Hperm.
  pose proof (insertion_sorted (zip keys ids) [] (SSorted_nil _)) as Hsorted.
  revert Hperm Hsorted.
  generalize (foldl (fun acc p => Exact.insert_down p.1 p.2 acc) []
                (zip keys ids)).
  intros sorted Hperm Hsorted.
  assert (length sorted = n) as Hlen.
  { rewrite (Permutation_length Hperm), length_zip_with. lia. }
  split; [by rewrite length_fmap|]. split; [by rewrite length_fmap|].
  split; [by rewrite zip_fst_snd|].
  intros i j a b Hij Ha Hb. rewrite list_lookup_fmap in Ha, Hb.
  destruct (sorted !! i) as [p|] eqn:Hp; simpl in Ha; [|done].
  destruct (sorted !! j) as [q|] eqn:Hq; simpl in Hb; [|done].
  injection Ha as <-. injection Hb as <-.
  by apply (StronglySorted_lookup_lt _ sorted i j p q Hsorted Hij).
Qed.

Lemma nfrac_pos {Real} `{!Numerics Real} (row : list Real) j a :
  row !! j = Some a -> SCIPisFeasIntegral a = false -> 0 < nfrac row.
Proof.
  intros Hj Ha. destruct (nfrac row) eqn:Hn; [|lia].
  apply nfrac_zero in Hn. eapply Forall_lookup_1 in Hn; eauto. congruence.
Qed.

(** C9.  If no entry of the assignment matrix of the current LP solution is
    fractional, [chooseLocation] returns -1 and the callback reports
    [SCIP_DIDNOTFIND] without creating a child; if some entry is
    fractional, a location is chosen, two children are created and the
    callback reports [SCIP_BRANCHED]. *)
Theorem branching_result {Real : Type} `{!Numerics Real} `{!Engine Real}
  (n : nat) (vars : list (SCIP_VAR Real)) (sol : SCIP_VAR Real -> Real)
  (pd : SCIP_PricerData) :
  Forall (valid_var n) vars -> square n (forbiddenassignments pd) ->
  sort_contract n ->
  exists A sids A' location,
    computeAssignments n vars sol = Some A
    /\ sortMedians n (replicate n (seq 0 n)) A = Some (sids, A')
    /\ chooseLocation n A' = Some location
    /\ ((forall i j a, mat_get A i j = Some a ->
                       SCIPisFeasIntegral a = true) ->
        location = (-1)%Z
        /\ branchExeclpSemiassign n vars sol pd
           = Some (SCIP_DIDNOTFIND, []))
    /\ ((exists i j a, mat_get A i j = Some a
                       /\ SCIPisFeasIntegral a = false) ->
        location <> (-1)%Z
        /\ exists L R, branchExeclpSemiassign n vars sol pd
                       = Some (SCIP_BRANCHED, [L; R])).
Proof.
  intros Hvalid Hpd Hsort.
  destruct (branchExeclp_facts n vars sol pd Hvalid Hpd Hsort)
    as (A & sids & A' & location & maxn & mind & HA & HsqA & Hrun & Hrows
        & HsqA' & Hchoose & Hmax & Hsel).
  exists A, sids, A', location. split; [done|]. split; [done|].
  split; [done|].
  assert (forall i row', A' !! i = Some row' ->
            exists row, A !! i = Some row /\ nfrac row' = nfrac row
                        /\ i < n) as Hback.
  { intros i row' Hi.
    assert (i < n) as Hin by (destruct HsqA' as [<- _]; by eapply lookup_lt_Some).
    destruct (square_lookup n A i HsqA Hin) as (row & Hrow & Hlen).
    exists row. split; [done|]. split; [|done].
    destruct (Hrows i row Hrow) as [_ HA'i].
    assert (row' = (SCIPsortDownRealInt row (seq 0 n) n).1) as ->
      by congruence.
    apply nfrac_Permutation.
    by destruct (Hsort row (seq 0 n)) as [Hperm _]; [|rewrite length_seq|]. }
  split.
  - intros Hint.
    assert (location = (-1)%Z) as ->.
    { destruct Hsel as [[_ ->]|(l & row' & _ & _ & Hl & Hn & Hpos & _)]; [done|].
      destruct (Hback l row' Hl) as (row & Hrow & Heq & _).
      assert (nfrac row = 0); [|lia].
      apply nfrac_zero, Forall_lookup_2. intros j a Hj.
      apply (Hint l j). unfold mat_get. rewrite Hrow. done. }
    split; [done|].
    unfold branchExeclpSemiassign. rewrite HA. simpl. rewrite Hrun. simpl.
    rewrite Hchoose. done.
  - intros (i & j & a & Hget & Hfrac).
    unfold mat_get in Hget.
    destruct (A !! i) as [row|] eqn:Hrow; simpl in Hget; [|done].
    pose proof (nfrac_pos row j a Hget Hfrac) as Hpos.
    destruct (Hrows i row Hrow) as [_ HA'i].
    destruct (Hback i _ HA'i) as (row2 & Hrow2 & Heq & Hin).
    assert (row2 = row) as -> by congruence.
    pose proof (Hmax i _ Hin HA'i) as Hle.
    destruct Hsel as [[Hzero _]|(l & rowl' & -> & Hl & HA'l & _)]; [lia|].
    split; [lia|].
    destruct (Hback l rowl' HA'l) as (rowl & Hrowl & _ & _).
    destruct (Hrows l rowl Hrowl) as [Hsl HAl].
    destruct (branchExeclp_branches n vars sol pd Hvalid Hpd Hsort
                A sids A' l rowl HA Hrun Hchoose Hrowl Hsl HAl)
      as (left & right & Hres & _).
    eexists _, _. exact Hres.
Qed.

(** An instance of [branching_result] on the sample columns. *)
Lemma branching_result_witness :
  exists A sids A' location,
    computeAssignments 3 Sample.vars Sample.sol = Some A
    /\ sortMedians 3 (replicate 3 (seq 0 3)) A = Some (sids, A')
    /\ chooseLocation 3 A' = Some location
    /\ ((forall i j a, mat_get A i j = Some a ->
                       SCIPisFeasIntegral a = true) ->
        location = (-1)%Z
        /\ branchExeclpSemiassign 3 Sample.vars Sample.sol
             (Sample.unrestricted 3)
           = Some (SCIP_DIDNOTFIND, []))
    /\ ((exists i j a, mat_get A i j = Some a
                       /\ SCIPisFeasIntegral a = false) ->
        location <> (-1)%Z
        /\ exists L R, branchExeclpSemiassign 3 Sample.vars Sample.sol
                         (Sample.unrestricted 3)
                       = Some (SCIP_BRANCHED, [L; R])).
Proof.
  apply (branching_result 3 Sample.vars Sample.sol (Sample.unrestricted 3)).
  - apply (bool_decide_unpack _). vm_compute. reflexivity.
  - split; [reflexivity|]. repeat constructor.
  - apply exact_sort_contract.
Defined.

(** C3 (as amended).  When the callback branches, the medians of the chosen
    location are taken in the order in which [SCIPsortDownRealInt] leaves
    the identity array when sorting the row of the location: every median
    occurs once in that order, and the assignment value of a median at an
    earlier position is not below that of a median at a later position.  A
    median that is already forbidden for the location is forbidden in
    neither child, and every other median is forbidden in the left child if
    its position in that order (forbidden medians counted) is even and in
    the right child if it is odd. *)
Theorem branching_alternates_by_position {Real : Type} `{!Numerics Real}
  `{!RealOrder Real} `{!Engine Real} (n : nat) (vars : list (SCIP_VAR Real))
  (sol : SCIP_VAR Real -> Real) (pd : SCIP_PricerData)
  (children : list Child) :
  Forall (valid_var n) vars -> square n (forbiddenassignments pd) ->
  sort_down_contract n ->
  branchExeclpSemiassign n vars sol pd = Some (SCIP_BRANCHED, children) ->
  exists A l row order L R,
    computeAssignments n vars sol = Some A
    /\ A !! l = Some row
    /\ order = (SCIPsortDownRealInt row (seq 0 n) n).2
    /\ Permutation order (seq 0 n)
    /\ (forall i j m m' a b, i < j ->
          order !! i = Some m -> order !! j = Some m' ->
          row !! m = Some a -> row !! m' = Some b ->
          real_le b a = true)
    /\ children = [L; R]
    /\ cons_location (child_cons L) = l
    /\ cons_location (child_cons R) = l
    /\ forall i m,
        order !! i = Some m ->
        exists f,
          SCIPpricerCpmpIsAssignmentForbidden pd m l = Some f
          /\ cons_forbidden (child_cons L) !! m
             = Some (negb f && Nat.even i)
          /\ cons_forbidden (child_cons R) !! m
             = Some (negb f && Nat.odd i).
Proof.
  intros Hvalid Hpd Hdown Hres.
  pose proof (sort_down_contract_sort n Hdown) as Hsort.
  destruct (branchExeclp_facts n vars sol pd Hvalid Hpd Hsort)
    as (A & sids & A' & location & maxn & mind & HA & HsqA & Hrun & Hrows
        & HsqA' & Hchoose & Hmax & Hsel).
  destruct Hsel as [[_ ->]|(l & rowl' & -> & Hl & HA'l & _)].
  { unfold branchExeclpSemiassign in Hres. rewrite HA in Hres. simpl in Hres.
    rewrite Hrun in Hres. simpl in Hres. rewrite Hchoose in Hres.
    simpl in Hres. congruence. }
  destruct (square_lookup n A l HsqA Hl) as (row & Hrow & Hlen).
  destruct (Hrows l row Hrow) as [Hsl HAl].
  destruct (branchExeclp_branches n vars sol pd Hvalid Hpd Hsort
              A sids A' l row HA Hrun Hchoose Hrow Hsl HAl)
    as (left & right & Hres' & Hl1 & Hl2 & Hdone & _).
  simpl in Hl1, Hl2.
  rewrite Hres' in Hres. injection Hres as <-.
  destruct (Hsort row (seq 0 n)) as [_ Hperm]; [done|by rewrite length_seq|].
  destruct (Hdown row (seq 0 n) Hlen (length_seq _ _))
    as (_ & _ & _ & Hdesc).
  eexists A, l, row, _, _, _. split; [done|]. split; [done|].
  split; [reflexivity|]. split; [exact Hperm|].
  split.
  { intros i j m m' a b Hij Hi Hj Ha Hb.
    destruct (sorted_key_of_id n row i m Hdown Hlen Hi) as [Hki _].
    destruct (sorted_key_of_id n row j m' Hdown Hlen Hj) as [Hkj _].
    apply (Hdesc i j a b Hij); congruence. }
  split; [reflexivity|]. cbn [child_cons].
  split; [done|]. split; [done|].
  rewrite !createCons_forbidden by done.
  intros i m Hi. apply (Hdone i m); [|done].
  apply lookup_lt_Some in Hi.
  by rewrite (Permutation_length Hperm), length_seq in Hi.
Qed.

(** An instance of [branching_alternates_by_position]: location 0 has the
    values 1/4, 3/4 and 0 for the medians 0, 1 and 2, which are taken in
    the order 1, 0, 2; median 2 is forbidden already. *)
Lemma branching_alternates_by_position_witness :
  let children :=
    [ {| child_node := 0;
         child_cons := {| cons_location := 0;
                          cons_forbidden := [false; true; false];
                          cons_node := 0; cons_propagate := true;
                          cons_npropvars := 0 |} |};
      {| child_node := 1;
         child_cons := {| cons_location := 0;
                          cons_forbidden := [true; false; false];
                          cons_node := 1; cons_propagate := true;
                          cons_npropvars := 0 |} |} ] in
  exists A l row order L R,
    computeAssignments 3 Sample2.vars Sample2.sol = Some A
    /\ A !! l = Some row
    /\ order = (SCIPsortDownRealInt row (seq 0 3) 3).2
    /\ Permutation order (seq 0 3)
    /\ (forall i j m m' a b, i < j ->
          order !! i = Some m -> order !! j = Some m' ->
          row !! m = Some a -> row !! m' = Some b ->
          real_le b a = true)
    /\ children = [L; R]
    /\ cons_location (child_cons L) = l
    /\ cons_location (child_cons R) = l
    /\ forall i m,
        order !! i = Some m ->
        exists f,
          SCIPpricerCpmpIsAssignmentForbidden Sample2.restricted m l
          = Some f
          /\ cons_forbidden (child_cons L) !! m
             = Some (negb f && Nat.even i)
          /\ cons_forbidden (child_cons R) !! m
             = Some (negb f && Nat.odd i).
Proof.
  apply (branching_alternates_by_position 3 Sample2.vars Sample2.sol
           Sample2.restricted).
  - apply (bool_decide_unpack _). vm_compute. reflexivity.
  - split; [reflexivity|]. repeat constructor.
  - apply exact_sort_down_contract.
  - vm_compute. reflexivity.
Defined.

(** C3 as stated fails: the medians of location 0 are sorted into the
    order 0, 1, 2, 3 (values 1/2, 1/2, 0, 0, ties by index); median 2 is
    forbidden already, so the remaining candidates are 0, 1, 3; the third
    of them, median 3, is forbidden in the right child and not in the
    left one, because its position in the full order is odd. *)
Lemma branching_alternation_counterexample :
  (A ← computeAssignments 4 Sample.vars4 Sample.sol4;
   '(sids, _) ← sortMedians 4 (replicate 4 (seq 0 4)) A;
   sids !! 0) = Some [0; 1; 2; 3]
  /\ filter (fun m => SCIPpricerCpmpIsAssignmentForbidden
                        Sample.restricted4 m 0 = Some false)
       [0; 1; 2; 3] = [0; 1; 3]
  /\ branchExeclpSemiassign 4 Sample.vars4 Sample.sol4 Sample.restricted4
     = Some (SCIP_BRANCHED,
             [ {| child_node := 0;
                  child_cons :=
                    {| cons_location := 0;
                       cons_forbidden := [true; false; false; false];
                       cons_node := 0; cons_propagate := true;
                       cons_npropvars := 0 |} |};
               {| child_node := 1;
                  child_cons :=
                    {| cons_location := 0;
                       cons_forbidden := [false; true; false; true];
                       cons_node := 1; cons_propagate := true;
                       cons_npropvars := 0 |} |} ]).
Proof. vm_compute. repeat split. Qed.

(** C10 fails on the sample columns: location 0 is assigned to median 0
    with value 1 and to the medians 1 and 2 with value 1/2 each; it is the
    location chosen for branching, and the condition asserted in the loop
    of [performBranching] is false for the entry of value 1. *)
Theorem branching_assertion_fails :
  (A ← computeAssignments 3 Sample.vars Sample.sol;
   '(sids, A') ← sortMedians 3 (replicate 3 (seq 0 3)) A;
   location ← chooseLocation 3 A';
   ids ← sids !! Z.to_nat location;
   row ← A' !! Z.to_nat location;
   holds ← performBranching_assertion 3 ids row;
   Some (location, row, holds))
  = Some (0%Z, [1; 1 # 2; 1 # 2]%Q, false).
Proof. vm_compute. reflexivity. Qed.

(** ** Pricing (pricer_cpmp.c) *)

Section Pricing.
Context {Real : Type} `{!Numerics Real} `{!Engine Real}.

(** Whatever the restriction state, every knapsack instance that the
    pricing loop hands to the solver is empty. *)
Lemma performPricing_loop_no_items capacities items profits demands count :
  forall median result calls result' calls',
    performPricing_loop capacities items profits demands median count
      result calls = Some (result', calls') ->
    Forall (fun p => kp_nitems p = 0 /\ kp_items p = []) calls ->
    Forall (fun p => kp_nitems p = 0 /\ kp_items p = []) calls'.
Proof.
  induction count as [|k IH]; intros median result calls result' calls' Hrun
    Hcalls; simpl in Hrun.
  - injection Hrun as _ Hc. by subst.
  - destruct (SCIPisStopped median); [injection Hrun as _ Hc; by subst|].
    destruct (capacities !! median) as [capacity|]; simpl in Hrun; [|done].
    eapply IH; [exact Hrun|]. apply Forall_app. split; [done|].
    by repeat constructor.
Qed.

Lemma performPricing_no_items n capacities pd useredcost master items
  profits demands result calls master' :
  performPricing n capacities pd useredcost master items profits demands
  = Some (result, calls, master') ->
  Forall (fun p => kp_nitems p = 0 /\ kp_items p = []) calls
  /\ master' = master.
Proof.
  unfold performPricing. intros Hrun.
  destruct (performPricing_loop capacities items profits demands 0 n
              SCIP_DIDNOTRUN []) as [[result0 calls0]|] eqn:Hloop;
    simpl in Hrun; [|done].
  injection Hrun as Hr Hc Hm. subst. split; [|done].
  eapply performPricing_loop_no_items; [exact Hloop|done].
Qed.

(** [addColumn] leaves every master constraint as it is. *)
Lemma addColumn_rows master median locations nlocations score cost :
  let master' := addColumn master median locations nlocations score cost in
  serviceconss master' = serviceconss master
  /\ convconss master' = convconss master
  /\ mediancons master' = mediancons master.
Proof. done. Qed.

End Pricing.

(** C1 fails on the code: with two locations and no forbidden assignment,
    both locations are eligible for median 0, yet the knapsack instances
    that [performPricing] builds contain no item, whatever the restriction
    state and the contents of the buffers; the master problem is returned
    as it was. *)
Theorem pricing_builds_no_items (pd : SCIP_PricerData) (items : list nat)
  (profits : list Q) (demands : list Z) :
  eligible_locations 2 (Sample.unrestricted 2) 0 = [0; 1]
  /\ performPricing 2 [10; 10]%Z pd true (createConstraints 2)
       items profits demands
     = Some (SCIP_SUCCESS,
             [ {| kp_nitems := 0; kp_items := []; kp_weights := [];
                  kp_profits := []; kp_capacity := 10 |};
               {| kp_nitems := 0; kp_items := []; kp_weights := [];
                  kp_profits := []; kp_capacity := 10 |} ],
             createConstraints 2).
Proof. split; reflexivity. Qed.

(** C7 fails on the code: a column for median 0 with the members 0 and 1,
    added to the master problem of two locations, gets the indeterminate
    value of the unassigned local as its objective coefficient, whatever
    the distances, and has an entry in none of the master constraints,
    where two coverage rows, one convexity row and the cardinality row are
    required. *)
Theorem addColumn_attaches_nothing (score cost : Q) :
  let master := addColumn (createConstraints 2) 0 [0; 1] 2 score cost in
  (var_obj <$> master_vars master) = [cost]
  /\ (SCIPvarGetLocations <$> master_vars master) = [[0; 1]]
  /\ attached_rows master 0 = 0.
Proof. repeat split; reflexivity. Qed.

(** ** Propagation (cons_semiassign.c) *)

Section Propagation.
Context {Real : Type} `{!Numerics Real} `{!Engine Real}.
Hypothesis contract : fixVar_contract.

Lemma vars_step_refl (vars : list (SCIP_VAR Real)) : vars_step vars vars.
Proof. split; [done|]. intros j var Hj. exists var. done. Qed.

Lemma vars_step_trans (vars1 vars2 vars3 : list (SCIP_VAR Real)) :
  vars_step vars1 vars2 -> vars_step vars2 vars3 -> vars_step vars1 vars3.
Proof.
  intros [Hl12 H12] [Hl23 H23]. split; [lia|]. intros j var1 Hj.
  destruct (H12 j var1 Hj) as (var2 & Hj2 & Hd2 & Hz2).
  destruct (H23 j var2 Hj2) as (var3 & Hj3 & Hd3 & Hz3).
  exists var3. split; [done|]. split; [congruence|].
  intros Hz. specialize (Hz2 Hz). subst var2. by apply Hz3.
Qed.

Lemma vars_step_insert (vars : list (SCIP_VAR Real)) i var var' :
  vars !! i = Some var -> var_data var' = var_data var ->
  SCIPisFeasZero (var_ub var) = false ->
  vars_step vars (<[i:=var']> vars).
Proof.
  intros Hi Hdata Hub. split; [by rewrite length_insert|].
  intros j varj Hj. destruct (decide (j = i)) as [->|Hne].
  - exists var'. rewrite list_lookup_insert_eq by (by eapply lookup_lt_Some).
    assert (varj = var) as -> by congruence.
    split; [done|]. split; [done|]. congruence.
  - exists varj. by rewrite list_lookup_insert_ne.
Qed.

Lemma violates_data cd (var var' : SCIP_VAR Real) :
  var_data var' = var_data var -> violates cd var' -> violates cd var.
Proof.
  unfold violates, SCIPvarGetMedian, SCIPisLocationInCluster.
  by intros ->.
Qed.

Lemma medians_in_range_step cd (vars vars' : list (SCIP_VAR Real)) :
  vars_step vars vars' -> medians_in_range vars cd ->
  medians_in_range vars' cd.
Proof.
  intros [Hlen Hstep] Hrange. apply Forall_lookup_2. intros j var' Hj.
  destruct (lookup_lt_is_Some_2 vars j) as [var Hvar].
  { rewrite <- Hlen. by eapply lookup_lt_Some. }
  destruct (Hstep j var Hvar) as (var2 & Hj2 & Hdata & _).
  assert (var2 = var') as -> by congruence.
  eapply Forall_lookup_1 in Hrange; [|exact Hvar].
  unfold SCIPvarGetMedian in *. by rewrite Hdata.
Qed.

Lemma scanned_fixed_step cd (vars vars' : list (SCIP_VAR Real)) :
  vars_step vars vars' -> scanned_fixed vars cd -> scanned_fixed vars' cd.
Proof.
  intros [Hlen Hstep] Hfixed j var' Hj Hvar' Hviol.
  destruct (lookup_lt_is_Some_2 vars j) as [var Hvar].
  { rewrite <- Hlen. by eapply lookup_lt_Some. }
  destruct (Hstep j var Hvar) as (var2 & Hj2 & Hdata & Hzero).
  assert (var2 = var') as -> by congruence.
  assert (SCIPisFeasZero (var_ub var) = true) as Hz.
  { apply (Hfixed j var Hj Hvar). by eapply violates_data. }
  by rewrite (Hzero Hz).
Qed.

(** The scan of one constraint. *)
Lemma consProp_vars_spec cd count :
  forall i (vars : list (SCIP_VAR Real)) result scanned,
    i + count <= length vars -> medians_in_range vars cd ->
    exists vars' i' result' scanned',
      consProp_vars cd i count vars result scanned
      = Some (vars', i', result', scanned')
      /\ vars_step vars vars'
      /\ i <= i' <= i + count
      /\ (forall j, j < i -> vars' !! j = vars !! j)
      /\ (forall j var', i <= j < i' -> vars' !! j = Some var' ->
            violates cd var' -> SCIPisFeasZero (var_ub var') = true)
      /\ (forall j, j ∈ scanned' -> j ∈ scanned \/ i <= j)
      /\ (result' = SCIP_CUTOFF
          \/ (i' = i + count
              /\ (result' = result \/ result' = SCIP_REDUCEDDOM))).
Proof.
  induction count as [|k IH]; intros i vars result scanned Hlen Hrange.
  { exists vars, i, result, scanned. simpl. split; [done|].
    split; [apply vars_step_refl|]. split; [lia|]. split; [done|].
    split; [intros; lia|]. split; [by left|]. right. split; [lia|by left]. }
  destruct (lookup_lt_is_Some_2 vars i) as [var Hvar]; [lia|].
  cbn [consProp_vars]. rewrite Hvar. simpl.
  (* the three ways in which the loop goes on to the next variable *)
  assert (forall result1,
            (result1 = result \/ result1 = SCIP_REDUCEDDOM) ->
            (violates cd var -> SCIPisFeasZero (var_ub var) = true) ->
            exists vars' i' result' scanned',
              consProp_vars cd (S i) k vars result1 (scanned ++ [i])
              = Some (vars', i', result', scanned')
              /\ vars_step vars vars'
              /\ i <= i' <= i + S k
              /\ (forall j, j < i -> vars' !! j = vars !! j)
              /\ (forall j var', i <= j < i' -> vars' !! j = Some var' ->
                    violates cd var' -> SCIPisFeasZero (var_ub var') = true)
              /\ (forall j, j ∈ scanned' -> j ∈ scanned \/ i <= j)
              /\ (result' = SCIP_CUTOFF
                  \/ (i' = i + S k
                      /\ (result' = result \/ result' = SCIP_REDUCEDDOM))))
    as Hnext.
  { intros result1 Hres1 Hok.
    destruct (IH (S i) vars result1 (scanned ++ [i]))
      as (vars' & i' & result' & scanned' & Hrun & Hstep & Hi' & Hbelow
          & Hwin & Hsc & Hend); [lia|done|].
    exists vars', i', result', scanned'. split; [done|]. split; [done|].
    split; [lia|]. split; [intros j Hj; apply Hbelow; lia|].
    split; [|split].
    - intros j var' Hj Hj' Hviol. destruct (decide (j = i)) as [->|Hne].
      + rewrite Hbelow in Hj' by lia.
        assert (var' = var) as -> by congruence. by apply Hok.
      + apply (Hwin j var'); [lia|done..].
    - intros j Hj. destruct (Hsc j Hj) as [Hin|Hge]; [|right; lia].
      apply elem_of_app in Hin as [Hin|Hin]; [by left|].
      apply list_elem_of_singleton in Hin. right. lia.
    - destruct Hend as [->|[-> Hr]]; [by left|]. right. split; [lia|].
      destruct Hr as [-> | ->]; [done|by right]. }
  destruct (SCIPisFeasZero (var_ub var)) eqn:Hub; simpl.
  { apply Hnext; [by left|done]. }
  assert (SCIPvarGetMedian var < length (cons_forbidden cd)) as Hmed.
  { eapply Forall_lookup_1 in Hrange; eauto. }
  destruct (lookup_lt_is_Some_2 _ _ Hmed) as [f Hf]. rewrite Hf. simpl.
  destruct (f && SCIPisLocationInCluster var (cons_location cd)) eqn:Hhit.
  2:{ apply Hnext; [by left|]. intros [Hforb Hin].
      assert (f = true) as -> by congruence.
      rewrite Hin in Hhit. done. }
  pose proof (contract var) as [Hdata Hfixed].
  destruct (SCIPfixVar var real_0) as [[var' infeasible] fixed] eqn:Hfix.
  simpl in Hdata, Hfixed.
  pose proof (vars_step_insert vars i var var' Hvar Hdata Hub) as Hstep1.
  destruct infeasible.
  { exists (<[i:=var']> vars), i, SCIP_CUTOFF, (scanned ++ [i]).
    split; [done|]. split; [done|]. split; [lia|].
    split; [intros j Hj; by rewrite list_lookup_insert_ne by lia|].
    split; [intros; lia|]. split; [|by left].
    intros j Hj. apply elem_of_app in Hj as [Hj|Hj]; [by left|].
    apply list_elem_of_singleton in Hj. right. lia. }
  destruct (IH (S i) (<[i:=var']> vars) SCIP_REDUCEDDOM (scanned ++ [i]))
    as (vars' & i' & result' & scanned' & Hrun & Hstep & Hi' & Hbelow
        & Hwin & Hsc & Hend).
  { rewrite length_insert. lia. }
  { by eapply medians_in_range_step. }
  exists vars', i', result', scanned'. split; [done|].
  split; [by eapply vars_step_trans|]. split; [lia|].
  split; [|split; [|split]].
  - intros j Hj. rewrite Hbelow by lia. by rewrite list_lookup_insert_ne by lia.
  - intros j varj Hj Hj' Hviol. destruct (decide (j = i)) as [->|Hne].
    + rewrite Hbelow in Hj' by lia.
      rewrite list_lookup_insert_eq in Hj' by (by eapply lookup_lt_Some).
      assert (varj = var') as -> by congruence. by apply Hfixed.
    + apply (Hwin j varj); [lia|done..].
  - intros j Hj. destruct (Hsc j Hj) as [Hin|Hge]; [|right; lia].
    apply elem_of_app in Hin as [Hin|Hin]; [by left|].
    apply list_elem_of_singleton in Hin. right. lia.
  - destruct Hend as [->|[-> Hr]]; [by left|]. right. split; [lia|].
    right. by destruct Hr.
Qed.

(** The pass of one constraint. *)
Lemma consProp_cons_spec cd (vars : list (SCIP_VAR Real)) result :
  medians_in_range vars cd -> scanned_fixed vars cd ->
  exists cd' vars' result' scanned,
    consProp_cons cd vars result = Some (cd', vars', result', scanned)
    /\ vars_step vars vars'
    /\ cons_location cd' = cons_location cd
    /\ cons_forbidden cd' = cons_forbidden cd
    /\ scanned_fixed vars' cd'
    /\ (forall j, j ∈ scanned -> cons_npropvars cd <= j)
    /\ (result' = SCIP_CUTOFF
        \/ ((result' = result \/ result' = SCIP_REDUCEDDOM)
            /\ (cons_propagate cd = true ->
                cons_npropvars cd <= length vars ->
                cons_npropvars cd' = length vars
                /\ cons_propagate cd' = false))).
Proof.
  intros Hrange Hfixed. unfold consProp_cons.
  destruct (cons_propagate cd) eqn:Hprop.
  2:{ exists cd, vars, result, []. split; [done|].
      split; [apply vars_step_refl|]. split; [done|]. split; [done|].
      split; [done|]. split; [intros j Hj; by apply elem_of_nil in Hj|].
      right. split; [by left|done]. }
  destruct (decide (cons_npropvars cd <= length vars)) as [Hle|Hgt].
  - destruct (consProp_vars_spec cd (length vars - cons_npropvars cd)
                (cons_npropvars cd) vars result [])
      as (vars' & i' & result' & scanned & Hrun & Hstep & Hi' & Hbelow
          & Hwin & Hsc & Hend); [lia|done|].
    rewrite Hrun. simpl. eexists _, vars', result', scanned.
    split; [done|]. split; [done|]. split; [done|]. split; [done|].
    split; [|split].
    + intros j var' Hj Hvar' Hviol. simpl in Hj.
      destruct (decide (j < cons_npropvars cd)) as [Hlt|Hge].
      * rewrite Hbelow in Hvar' by done. by apply (Hfixed j var').
      * apply (Hwin j var'); [lia|done..].
    + intros j Hj. destruct (Hsc j Hj) as [Hin|?]; [|done].
      by apply elem_of_nil in Hin.
    + destruct Hend as [->|[-> Hr]]; [by left|]. right. split; [done|].
      intros _ _. simpl. split; [lia|done].
  - replace (length vars - cons_npropvars cd) with 0 by lia. simpl.
    eexists _, vars, result, []. split; [done|].
    split; [apply vars_step_refl|]. split; [done|]. split; [done|].
    split; [|split].
    + intros j var' Hj Hvar' Hviol. simpl in Hj.
      by apply (Hfixed j var').
    + intros j Hj. by apply elem_of_nil in Hj.
    + right. split; [by left|]. intros _ ?. lia.
Qed.

Lemma propagated_cutoff (vars : list (SCIP_VAR Real)) conss :
  Forall (fun cd => medians_in_range vars cd /\ scanned_fixed vars cd) conss ->
  Forall3 (propagated vars SCIP_CUTOFF) conss conss (map (fun _ => []) conss).
Proof.
  induction 1 as [|cd conss [_ Hfixed] _ IH]; simpl; constructor; [|done].
  split; [done|]. split; [done|]. split; [done|].
  split; [intros j Hj; by apply elem_of_nil in Hj|]. done.
Qed.

Lemma propagated_step (vars vars' : list (SCIP_VAR Real)) result cd cd'
  scanned :
  vars_step vars vars' -> propagated vars result cd cd' scanned ->
  (result <> SCIP_CUTOFF ->
   cons_propagate cd = true -> cons_npropvars cd <= length vars ->
   cons_npropvars cd' = length vars /\ cons_propagate cd' = false) ->
  forall result',
    (result = SCIP_CUTOFF -> result' = SCIP_CUTOFF) ->
    propagated vars' result' cd cd' scanned.
Proof.
  intros Hstep (Hloc & Hforb & Hfixed & Hsc & _) Hmark result' Hres.
  split; [done|]. split; [done|].
  split; [by eapply scanned_fixed_step|]. split; [done|].
  destruct Hstep as [Hlen _]. rewrite Hlen. intros Hne. apply Hmark.
  intros ->. by apply Hne, Hres.
Qed.

(** The loop over the constraints. *)
Lemma consProp_conss_spec conss :
  forall (vars : list (SCIP_VAR Real)) result,
    Forall (fun cd => medians_in_range vars cd /\ scanned_fixed vars cd)
      conss ->
    exists conss' vars' result' trace,
      consProp_conss conss vars result = Some (conss', vars', result', trace)
      /\ vars_step vars vars'
      /\ (result = SCIP_CUTOFF -> result' = SCIP_CUTOFF)
      /\ Forall3 (propagated vars' result') conss conss' trace.
Proof.
  induction conss as [|cd rest IH]; intros vars result Hpre.
  { exists [], vars, result, []. split; [done|].
    split; [apply vars_step_refl|]. split; [done|]. constructor. }
  cbn [consProp_conss]. destruct (decide (result = SCIP_CUTOFF)) as [->|Hne].
  { eexists _, vars, SCIP_CUTOFF, _. split; [done|].
    split; [apply vars_step_refl|]. split; [done|].
    by apply propagated_cutoff. }
  apply Forall_cons in Hpre as [[Hrange Hfixed] Hrest].
  destruct (consProp_cons_spec cd vars result Hrange Hfixed)
    as (cd' & vars1 & result1 & scanned & Hrun & Hstep1 & Hloc & Hforb
        & Hfixed1 & Hsc & Hend).
  rewrite Hrun. simpl.
  destruct (IH vars1 result1) as (rest' & vars' & result' & trace & Hrun'
                                  & Hstep' & Hcut & Hall).
  { eapply Forall_impl; [exact Hrest|]. intros cd0 [Hr0 Hf0]. split.
    - by eapply medians_in_range_step.
    - by eapply scanned_fixed_step. }
  rewrite Hrun'. simpl. exists (cd' :: rest'), vars', result', (scanned :: trace).
  split; [done|]. split; [by eapply vars_step_trans|].
  split; [done|]. constructor; [|done].
  apply (propagated_step vars1 vars' result1).
  - done.
  - split; [done|]. split; [done|]. split; [done|]. split; [done|].
    destruct Hstep1 as [Hlen1 _]. rewrite Hlen1. intros Hne1.
    destruct Hend as [?|[_ Hmark]]; [done|]. exact Hmark.
  - destruct Hstep1 as [Hlen1 _]. rewrite Hlen1. intros Hne1.
    destruct Hend as [?|[_ Hmark]]; [done|]. exact Hmark.
  - exact Hcut.
Qed.

End Propagation.

Lemma consActive_keeps_mark n nvars cd pd cd' pd' b :
  consActiveSemiassign n nvars cd pd = Some (cd', pd', b) ->
  cons_npropvars cd' = cons_npropvars cd
  /\ cons_forbidden cd' = cons_forbidden cd
  /\ cons_location cd' = cons_location cd
  /\ b = (cons_npropvars cd <? nvars)
  /\ cons_propagate cd' = b || cons_propagate cd.
Proof.
  unfold consActiveSemiassign. intros Hrun.
  destruct (SCIPpricerCpmpForbidAssignments n pd (cons_location cd)
              (cons_forbidden cd)) as [pd1|]; simpl in Hrun; [|done].
  injection Hrun as Hcd Hpd Hb. subst.
  by destruct (cons_npropvars cd <? nvars), cd.
Qed.

Lemma exact_fixVar_contract : fixVar_contract (Real := Q).
Proof.
  intros var. simpl. unfold Exact.fixVar.
  destruct (negb (Qle_bool (var_lb var) 0) || negb (Qle_bool 0 (var_ub var)));
    simpl; split; done.
Qed.

(** C5.  Suppose [SCIPfixVar] meets its contract and, for every
    constraint, the variables below its mark that violate it have a zero
    upper bound (which holds trivially for a new constraint, whose mark is
    0).  Then [consPropSemiassign] returns, and for every constraint the
    same holds afterwards with the new mark; the indices it read are at
    least the old mark; and unless a cutoff is reported, a constraint that
    was to be propagated has its mark at the number of variables.
    Activation never changes the mark: it only requests propagation when
    there are variables beyond it. *)
Theorem propagation_fixes_scanned {Real : Type} `{!Numerics Real}
  `{!Engine Real} (contract : fixVar_contract)
  (conss : list SCIP_ConsData) (vars : list (SCIP_VAR Real)) :
  Forall (fun cd => medians_in_range vars cd /\ scanned_fixed vars cd) conss ->
  exists conss' vars' result trace,
    consPropSemiassign conss vars = Some (conss', vars', result, trace)
    /\ length vars' = length vars
    /\ Forall3 (propagated vars' result) conss conss' trace
    /\ forall n nvars cd pd cd' pd' b,
        consActiveSemiassign n nvars cd pd = Some (cd', pd', b) ->
        cons_npropvars cd' = cons_npropvars cd
        /\ cons_forbidden cd' = cons_forbidden cd
        /\ cons_location cd' = cons_location cd
        /\ b = (cons_npropvars cd <? nvars)
        /\ cons_propagate cd' = b || cons_propagate cd.
Proof.
  intros Hpre.
  destruct (consProp_conss_spec contract conss vars SCIP_DIDNOTFIND Hpre)
    as (conss' & vars' & result & trace & Hrun & [Hlen _] & _ & Hall).
  exists conss', vars', result, trace. split; [exact Hrun|].
  split; [done|]. split; [done|]. apply consActive_keeps_mark.
Qed.

(** An instance of [propagation_fixes_scanned]: the sample columns and a
    new constraint that forbids median 1 for location 0. *)
Lemma propagation_fixes_scanned_witness :
  let conss := [SCIPcreateConsSemiassign 3 0 [false; true; false] 0] in
  exists conss' vars' result trace,
    consPropSemiassign conss Sample.vars = Some (conss', vars', result, trace)
    /\ length vars' = length Sample.vars
    /\ Forall3 (propagated vars' result) conss conss' trace
    /\ forall n nvars cd pd cd' pd' b,
        consActiveSemiassign n nvars cd pd = Some (cd', pd', b) ->
        cons_npropvars cd' = cons_npropvars cd
        /\ cons_forbidden cd' = cons_forbidden cd
        /\ cons_location cd' = cons_location cd
        /\ b = (cons_npropvars cd <? nvars)
        /\ cons_propagate cd' = b || cons_propagate cd.
Proof.
  apply (propagation_fixes_scanned exact_fixVar_contract
           [SCIPcreateConsSemiassign 3 0 [false; true; false] 0] Sample.vars).
  repeat constructor; simpl; try lia.
  intros j var Hj. simpl in Hj. lia.
Defined.

(* ===================================================================== *)
(** * Part III: further properties of the plugins                          *)
(* ===================================================================== *)

(** ** vardata.c *)

(** X1.  [SCIPisLocationInCluster] answers TRUE exactly for the locations
    that occur in the cluster of the variable. *)
Theorem location_in_cluster_iff {Real : Type} (var : SCIP_VAR Real)
  (location : nat) :
  SCIPisLocationInCluster var location = true
  <-> location ∈ SCIPvarGetLocations var.
Proof.
  unfold SCIPisLocationInCluster, SCIPvarGetLocations.
  induction (vardata_locations (var_data var)) as [|l rest IH]; simpl.
  - split; [done|]. intros Hin. by apply elem_of_nil in Hin.
  - rewrite elem_of_cons. destruct (l =? location) eqn:Heq.
    + apply Nat.eqb_eq in Heq. split; [|done]. intros _. by left.
    + apply Nat.eqb_neq in Heq. rewrite IH. split; [by right|].
      intros [->|Hin]; [done|done].
Qed.

(** ** Activation and deactivation (cons_semiassign.c, pricer_cpmp.c) *)

(** Activating a constraint whose medians are new and deactivating it. *)
Lemma active_deactive_spec n nvars cd pd :
  square n (forbiddenassignments pd) -> cons_fits n cd ->
  newly_forbidden n pd cd ->
  exists cd1 pd1 cd2,
    consActiveSemiassign n nvars cd pd
    = Some (cd1, pd1, cons_npropvars cd <? nvars)
    /\ square n (forbiddenassignments pd1)
    /\ (forall m l,
          SCIPpricerCpmpIsAssignmentForbidden pd1 m l
          = if decide (l = cons_location cd /\ m < n
                       /\ cons_forbidden cd !! m = Some true)
            then Some true
            else SCIPpricerCpmpIsAssignmentForbidden pd m l)
    /\ cons_location cd1 = cons_location cd
    /\ cons_forbidden cd1 = cons_forbidden cd
    /\ cons_npropvars cd1 = cons_npropvars cd
    /\ consDeactiveSemiassign n cd1 pd1 = Some (cd2, pd)
    /\ cons_location cd2 = cons_location cd
    /\ cons_forbidden cd2 = cons_forbidden cd
    /\ cons_npropvars cd2 = cons_npropvars cd
    /\ cons_propagate cd2 = false.
Proof.
  intros Hsq [Hloc Hlen] Hnew.
  destruct (forbid_spec n pd (cons_location cd) (cons_forbidden cd))
    as (pd1 & Hf & Hsq1 & Hget1); [done..|].
  destruct (allow_spec n pd1 (cons_location cd) (cons_forbidden cd))
    as (pd2 & Ha & Hsq2 & Hget2); [done..|].
  assert (pd2 = pd) as ->.
  { apply (pricerdata_ext n); [done..|]. intros m l.
    rewrite Hget2, Hget1. case_decide as Hc; [|done].
    destruct Hc as (-> & Hm & Hmask). symmetry. by apply Hnew. }
  unfold consActiveSemiassign. rewrite Hf. simpl.
  eexists _, pd1, _. split; [done|]. split; [done|]. split; [done|].
  unfold consDeactiveSemiassign.
  destruct (cons_npropvars cd <? nvars); simpl; rewrite Ha; done.
Qed.

(** X2.  A constraint whose forbidden pairs are not forbidden yet can be
    activated and deactivated again: both calls succeed, the pairs are
    forbidden in between, the restriction state afterwards is the one
    before, and the constraint keeps its location, its medians and its
    mark, with the propagation flag cleared. *)
Theorem activation_round_trip (n nvars : nat) (cd : SCIP_ConsData)
  (pd : SCIP_PricerData) :
  square n (forbiddenassignments pd) -> cons_fits n cd ->
  newly_forbidden n pd cd ->
  exists cd1 pd1 b cd2,
    consActiveSemiassign n nvars cd pd = Some (cd1, pd1, b)
    /\ (forall m, m < n -> cons_forbidden cd !! m = Some true ->
          SCIPpricerCpmpIsAssignmentForbidden pd1 m (cons_location cd)
          = Some true)
    /\ consDeactiveSemiassign n cd1 pd1 = Some (cd2, pd)
    /\ cons_location cd2 = cons_location cd
    /\ cons_forbidden cd2 = cons_forbidden cd
    /\ cons_npropvars cd2 = cons_npropvars cd
    /\ cons_propagate cd2 = false.
Proof.
  intros Hsq Hfits Hnew.
  destruct (active_deactive_spec n nvars cd pd Hsq Hfits Hnew)
    as (cd1 & pd1 & cd2 & Hact & _ & Hget & _ & _ & _ & Hdeact & Hrest).
  exists cd1, pd1, (cons_npropvars cd <? nvars), cd2.
  split; [done|]. split; [|done].
  intros m Hm Hmask. rewrite Hget. by rewrite decide_True.
Qed.

(** An instance of [activation_round_trip]: median 1 is forbidden for
    location 0 in a state that forbids median 2 for it. *)
Lemma activation_round_trip_witness :
  let cd := SCIPcreateConsSemiassign 3 0 [false; true; false] 0 in
  let pd := {| forbiddenassignments :=
                 [[false; false; false]; [false; false; false];
                  [true; false; false]] |} in
  exists cd1 pd1 b cd2,
    consActiveSemiassign 3 5 cd pd = Some (cd1, pd1, b)
    /\ (forall m, m < 3 -> cons_forbidden cd !! m = Some true ->
          SCIPpricerCpmpIsAssignmentForbidden pd1 m (cons_location cd)
          = Some true)
    /\ consDeactiveSemiassign 3 cd1 pd1 = Some (cd2, pd)
    /\ cons_location cd2 = cons_location cd
    /\ cons_forbidden cd2 = cons_forbidden cd
    /\ cons_npropvars cd2 = cons_npropvars cd
    /\ cons_propagate cd2 = false.
Proof.
  apply (activation_round_trip 3 5).
  - split; [reflexivity|]. repeat constructor.
  - split; simpl; lia.
  - intros [|[|[|m]]] Hm Hmask; simpl in Hmask; first [done | lia].
Defined.

(** X3.  The constraints of the two children that [performBranching]
    creates in a restriction state forbid only pairs that are not forbidden
    in that state; each of them can therefore be activated and deactivated
    in that state, which leaves the state as it was. *)
Theorem child_activation_round_trip {Real : Type} `{!Numerics Real}
  `{!Engine Real} (n nvars : nat) (pd : SCIP_PricerData) (ids : list nat)
  (row : list Real) (loc : nat) :
  square n (forbiddenassignments pd) -> loc < n ->
  Permutation ids (seq 0 n) ->
  exists L R,
    performBranching n pd ids row loc = Some [L; R]
    /\ forall c, c ∈ [L; R] ->
         newly_forbidden n pd (child_cons c)
         /\ exists cd1 pd1 b cd2,
              consActiveSemiassign n nvars (child_cons c) pd
              = Some (cd1, pd1, b)
              /\ consDeactiveSemiassign n cd1 pd1 = Some (cd2, pd).
Proof.
  intros Hsq Hloc Hperm.
  destruct (seq_permutation_facts n ids Hperm) as (Hlen & Hnodup & Hrange).
  destruct (performBranching_spec n pd ids loc Hsq Hloc Hlen Hnodup Hrange row)
    as (left & right & Hrun & Hl & Hr & Hdone & _).
  simpl in Hl, Hr.
  eexists _, _. split; [exact Hrun|].
  assert (forall m, m < n -> exists i, i < n /\ ids !! i = Some m) as Hpos.
  { intros m Hm. assert (m ∈ ids) as Hin.
    { rewrite Hperm. apply elem_of_seq. lia. }
    apply list_elem_of_lookup in Hin as [i Hi]. exists i. split; [|done].
    rewrite <- Hlen. by eapply lookup_lt_Some. }
  assert (forall arr node,
            length arr = n ->
            (forall m, m < n -> arr !! m = Some true ->
               SCIPpricerCpmpIsAssignmentForbidden pd m loc = Some false) ->
            newly_forbidden n pd (SCIPcreateConsSemiassign n loc arr node)
            /\ exists cd1 pd1 b cd2,
                 consActiveSemiassign n nvars
                   (SCIPcreateConsSemiassign n loc arr node) pd
                 = Some (cd1, pd1, b)
                 /\ consDeactiveSemiassign n cd1 pd1 = Some (cd2, pd))
    as Hchild.
  { intros arr node Harr Hnew.
    assert (newly_forbidden n pd (SCIPcreateConsSemiassign n loc arr node))
      as Hnew'.
    { intros m Hm. rewrite createCons_forbidden by done. by apply Hnew. }
    split; [done|].
    destruct (active_deactive_spec n nvars
                (SCIPcreateConsSemiassign n loc arr node) pd)
      as (cd1 & pd1 & cd2 & Hact & _ & _ & _ & _ & _ & Hdeact & _);
      [done| |done|].
    { split; [done|]. rewrite createCons_forbidden by done. lia. }
    by eexists _, _, _, _. }
  intros c Hc. apply elem_of_cons in Hc as [->|Hc];
    [|apply list_elem_of_singleton in Hc as ->]; cbn [child_cons];
    apply Hchild; try done.
  - intros m Hm Hleft. destruct (Hpos m Hm) as (i & Hi & Him).
    destruct (Hdone i m Hi Him) as (f & Hf & Hlm & _). simpl in Hlm.
    rewrite Hlm in Hleft. by destruct f.
  - intros m Hm Hright. destruct (Hpos m Hm) as (i & Hi & Him).
    destruct (Hdone i m Hi Him) as (f & Hf & _ & Hrm). simpl in Hrm.
    rewrite Hrm in Hright. by destruct f.
Qed.

(** An instance of [child_activation_round_trip]. *)
Lemma child_activation_round_trip_witness :
  let pd := {| forbiddenassignments :=
                 [[false; false; false]; [false; false; false];
                  [true; false; false]] |} in
  exists L R,
    performBranching 3 pd [1; 0; 2] [(1 # 2)%Q; (1 # 2)%Q; 0%Q] 0
    = Some [L; R]
    /\ forall c, c ∈ [L; R] ->
         newly_forbidden 3 pd (child_cons c)
         /\ exists cd1 pd1 b cd2,
              consActiveSemiassign 3 5 (child_cons c) pd
              = Some (cd1, pd1, b)
              /\ consDeactiveSemiassign 3 cd1 pd1 = Some (cd2, pd).
Proof.
  apply (child_activation_round_trip (Real := Q) 3 5).
  - split; [reflexivity|]. repeat constructor.
  - lia.
  - simpl. apply perm_swap.
Defined.

(** X4.  Two constraints that are new one after the other are activated in
    turn and deactivated in reverse order: every call succeeds, the inner
    deactivation returns to the state between the two activations and the
    outer one to the initial state. *)
Theorem nested_activation_round_trip (n nv1 nv2 : nat)
  (c1 c2 : SCIP_ConsData) (pd : SCIP_PricerData) :
  square n (forbiddenassignments pd) -> cons_fits n c1 -> cons_fits n c2 ->
  newly_forbidden n pd c1 -> newly_forbidden n pd c2 ->
  (forall m, m < n -> cons_location c1 = cons_location c2 ->
     cons_forbidden c1 !! m = Some true ->
     cons_forbidden c2 !! m = Some true -> False) ->
  exists c1a pd1 b1 c2a pd2 b2 c2b c1b,
    consActiveSemiassign n nv1 c1 pd = Some (c1a, pd1, b1)
    /\ consActiveSemiassign n nv2 c2 pd1 = Some (c2a, pd2, b2)
    /\ consDeactiveSemiassign n c2a pd2 = Some (c2b, pd1)
    /\ consDeactiveSemiassign n c1a pd1 = Some (c1b, pd).
Proof.
  intros Hsq Hfit1 Hfit2 Hnew1 Hnew2 Hdisj.
  destruct (active_deactive_spec n nv1 c1 pd Hsq Hfit1 Hnew1)
    as (c1a & pd1 & c1b & Hact1 & Hsq1 & Hget1 & _ & _ & _ & Hdeact1 & _).
  assert (newly_forbidden n pd1 c2) as Hnew2'.
  { intros m Hm Hmask. rewrite Hget1. case_decide as Hc.
    - destruct Hc as (Heq & _ & Hmask1). exfalso. by eapply (Hdisj m).
    - by apply Hnew2. }
  destruct (active_deactive_spec n nv2 c2 pd1 Hsq1 Hfit2 Hnew2')
    as (c2a & pd2 & c2b & Hact2 & _ & _ & _ & _ & _ & Hdeact2 & _).
  by eexists c1a, pd1, _, c2a, pd2, _, c2b, c1b.
Qed.

(** An instance of [nested_activation_round_trip]: medians 1 and 2 are
    forbidden for location 0 by two constraints. *)
Lemma nested_activation_round_trip_witness :
  let c1 := SCIPcreateConsSemiassign 3 0 [false; true; false] 0 in
  let c2 := SCIPcreateConsSemiassign 3 0 [false; false; true] 1 in
  let pd := pricerInitsolCpmp 3 in
  exists c1a pd1 b1 c2a pd2 b2 c2b c1b,
    consActiveSemiassign 3 4 c1 pd = Some (c1a, pd1, b1)
    /\ consActiveSemiassign 3 5 c2 pd1 = Some (c2a, pd2, b2)
    /\ consDeactiveSemiassign 3 c2a pd2 = Some (c2b, pd1)
    /\ consDeactiveSemiassign 3 c1a pd1 = Some (c1b, pd).
Proof.
  apply (nested_activation_round_trip 3 4 5).
  - split; [reflexivity|]. repeat constructor.
  - split; simpl; lia.
  - split; simpl; lia.
  - intros [|[|[|m]]] Hm Hmask; simpl in Hmask; first [done | lia].
  - intros [|[|[|m]]] Hm Hmask; simpl in Hmask; first [done | lia].
  - intros [|[|[|m]]] Hm _ H1 H2; simpl in H1, H2; first [done | lia].
Defined.

(** ** The restriction state (pricer_cpmp.c), continued *)

(** X5.  Forbidding the medians of two masks, for the same or for
    different locations, gives the same restriction state in either
    order, and both orders succeed. *)
Theorem forbid_commutes (n : nat) (pd : SCIP_PricerData) (l1 l2 : nat)
  (mask1 mask2 : list bool) :
  square n (forbiddenassignments pd) -> l1 < n -> l2 < n ->
  n <= length mask1 -> n <= length mask2 ->
  exists pd',
    (pd1 ← SCIPpricerCpmpForbidAssignments n pd l1 mask1;
     SCIPpricerCpmpForbidAssignments n pd1 l2 mask2) = Some pd'
    /\ (pd2 ← SCIPpricerCpmpForbidAssignments n pd l2 mask2;
        SCIPpricerCpmpForbidAssignments n pd2 l1 mask1) = Some pd'.
Proof.
  intros Hsq Hl1 Hl2 Hm1 Hm2.
  destruct (forbid_spec n pd l1 mask1) as (pd1 & Hf1 & Hsq1 & Hget1);
    [done..|].
  destruct (forbid_spec n pd1 l2 mask2) as (pd12 & Hf12 & Hsq12 & Hget12);
    [done..|].
  destruct (forbid_spec n pd l2 mask2) as (pd2 & Hf2 & Hsq2 & Hget2);
    [done..|].
  destruct (forbid_spec n pd2 l1 mask1) as (pd21 & Hf21 & Hsq21 & Hget21);
    [done..|].
  exists pd12. rewrite Hf1, Hf2. simpl. split; [done|].
  rewrite Hf21. f_equal. apply (pricerdata_ext n); [done..|].
  intros m l. rewrite Hget21, Hget2, Hget12, Hget1.
  by repeat case_decide.
Qed.

(** An instance of [forbid_commutes]. *)
Lemma forbid_commutes_witness :
  exists pd',
    (pd1 ← SCIPpricerCpmpForbidAssignments 2 (pricerInitsolCpmp 2) 0
             [true; false];
     SCIPpricerCpmpForbidAssignments 2 pd1 1 [true; true]) = Some pd'
    /\ (pd2 ← SCIPpricerCpmpForbidAssignments 2 (pricerInitsolCpmp 2) 1
                [true; true];
        SCIPpricerCpmpForbidAssignments 2 pd2 0 [true; false]) = Some pd'.
Proof.
  apply (forbid_commutes 2 (pricerInitsolCpmp 2) 0 1).
  - split; [reflexivity|]. repeat constructor.
  - lia.
  - lia.
  - simpl. lia.
  - simpl. lia.
Defined.

Lemma single_assign_spec n (b : bool) pd m loc :
  square n (forbiddenassignments pd) -> m < n -> loc < n ->
  exists fa,
    mat_set (forbiddenassignments pd) m loc b = Some fa
    /\ square n fa
    /\ forall m' l', mat_get fa m' l'
                     = if decide (m' = m /\ l' = loc) then Some b
                       else mat_get (forbiddenassignments pd) m' l'.
Proof.
  intros Hsq Hm Hloc.
  destruct (square_lookup n _ m Hsq Hm) as (row & Hrow & Hlen).
  exists (<[m:=<[loc:=b]> row]> (forbiddenassignments pd)).
  split; [apply mat_set_Some; [done|lia]|].
  split; [apply square_insert; [done|by rewrite length_insert]|].
  intros m' l'. apply mat_get_set; [done|lia].
Qed.

(** X6.  For locations [median] and [location], the single-pair calls
    [SCIPpricerCpmpForbidAssignment] and [SCIPpricerCpmpAllowAssignment]
    do what the mask calls do on the mask that contains [median] alone. *)
Theorem single_pair_is_unit_mask (n : nat) (pd : SCIP_PricerData)
  (median location : nat) :
  square n (forbiddenassignments pd) -> median < n -> location < n ->
  SCIPpricerCpmpForbidAssignment pd median location
  = SCIPpricerCpmpForbidAssignments n pd location
      (<[median:=true]> (replicate n false))
  /\ SCIPpricerCpmpAllowAssignment pd median location
     = SCIPpricerCpmpAllowAssignments n pd location
         (<[median:=true]> (replicate n false))
  /\ is_Some (SCIPpricerCpmpForbidAssignment pd median location)
  /\ is_Some (SCIPpricerCpmpAllowAssignment pd median location).
Proof.
  intros Hsq Hm Hloc.
  assert (forall m',
            (<[median:=true]> (replicate n false) : list bool) !! m'
            = Some true <-> m' = median) as Hmask.
  { intros m'. destruct (decide (m' = median)) as [->|Hne].
    - rewrite list_lookup_insert_eq by (by rewrite length_replicate). done.
    - rewrite list_lookup_insert_ne by done. split; [|done].
      intros Hrep. apply lookup_replicate in Hrep as [? _]. done. }
  assert (n <= length (<[median:=true]> (replicate n false) : list bool))
    as Hlen by (by rewrite length_insert, length_replicate).
  destruct (single_assign_spec n true pd median location)
    as (fa1 & Hs1 & Hsq1 & Hg1); [done..|].
  destruct (single_assign_spec n false pd median location)
    as (fa0 & Hs0 & Hsq0 & Hg0); [done..|].
  destruct (forbid_spec n pd location _ Hsq Hloc Hlen)
    as (pdf & Hf & Hsqf & Hgf).
  destruct (allow_spec n pd location _ Hsq Hloc Hlen)
    as (pda & Ha & Hsqa & Hga).
  unfold SCIPpricerCpmpForbidAssignment, SCIPpricerCpmpAllowAssignment.
  rewrite Hs1, Hs0, Hf, Ha. simpl.
  split; [|split; [|split; by eexists]].
  - f_equal. apply (pricerdata_ext n); [done..|]. intros m' l'.
    rewrite Hgf. unfold SCIPpricerCpmpIsAssignmentForbidden. simpl.
    rewrite Hg1. repeat case_decide; try done; exfalso.
    + match goal with H : ~ _ |- _ => apply H end.
      destruct_and!. subst. split; [done|]. split; [done|]. by apply Hmask.
    + match goal with H : ~ (_ = median /\ _) |- _ => apply H end.
      destruct_and!. split; [|done]. by apply Hmask.
  - f_equal. apply (pricerdata_ext n); [done..|]. intros m' l'.
    rewrite Hga. unfold SCIPpricerCpmpIsAssignmentForbidden. simpl.
    rewrite Hg0. repeat case_decide; try done; exfalso.
    + match goal with H : ~ _ |- _ => apply H end.
      destruct_and!. subst. split; [done|]. split; [done|]. by apply Hmask.
    + match goal with H : ~ (_ = median /\ _) |- _ => apply H end.
      destruct_and!. split; [|done]. by apply Hmask.
Qed.

(** An instance of [single_pair_is_unit_mask]. *)
Lemma single_pair_is_unit_mask_witness :
  let pd := pricerInitsolCpmp 3 in
  SCIPpricerCpmpForbidAssignment pd 2 1
  = SCIPpricerCpmpForbidAssignments 3 pd 1 (<[2:=true]> (replicate 3 false))
  /\ SCIPpricerCpmpAllowAssignment pd 2 1
     = SCIPpricerCpmpAllowAssignments 3 pd 1
         (<[2:=true]> (replicate 3 false))
  /\ is_Some (SCIPpricerCpmpForbidAssignment pd 2 1)
  /\ is_Some (SCIPpricerCpmpAllowAssignment pd 2 1).
Proof.
  apply (single_pair_is_unit_mask 3 (pricerInitsolCpmp 3) 2 1).
  - split; [reflexivity|]. repeat constructor.
  - lia.
  - lia.
Defined.

(** ** Propagation (cons_semiassign.c), continued *)

Section PropagationTrace.
Context {Real : Type} `{!Numerics Real} `{!Engine Real}.

Lemma consProp_vars_trace cd count :
  forall i (vars : list (SCIP_VAR Real)) r sc vars' i' r' sc',
    consProp_vars cd i count vars r sc = Some (vars', i', r', sc') ->
    length vars' = length vars
    /\ exists k,
         sc' = sc ++ seq i k
         /\ ((i' = i + count /\ k = count /\ (r = SCIP_CUTOFF \/ r' <> SCIP_CUTOFF))
             \/ (r' = SCIP_CUTOFF /\ i <= i' /\ k = S (i' - i))).
Proof.
  induction count as [|c IH]; intros i vars r sc vars' i' r' sc' Hrun.
  { simpl in Hrun. injection Hrun as <- <- <- <-. split; [done|].
    exists 0. simpl. rewrite app_nil_r. split; [done|]. left.
    split; [lia|]. split; [done|].
    destruct (decide (r = SCIP_CUTOFF)); [by left|by right]. }
  cbn [consProp_vars] in Hrun.
  destruct (vars !! i) as [var|] eqn:Hvar; simpl in Hrun; [|done].
  assert (forall vars1 r1,
            length vars1 = length vars ->
            (r = SCIP_CUTOFF \/ r1 <> SCIP_CUTOFF) ->
            consProp_vars cd (S i) c vars1 r1 (sc ++ [i])
            = Some (vars', i', r', sc') ->
            length vars' = length vars
            /\ exists k,
                 sc' = sc ++ seq i k
                 /\ ((i' = i + S c /\ k = S c
                      /\ (r = SCIP_CUTOFF \/ r' <> SCIP_CUTOFF))
                     \/ (r' = SCIP_CUTOFF /\ i <= i' /\ k = S (i' - i))))
    as Hnext.
  { intros vars1 r1 Hlen1 Hr1 Hrec.
    destruct (IH _ _ _ _ _ _ _ _ Hrec) as (Hlen & k & -> & Hk).
    split; [lia|]. exists (S k). split; [by rewrite <- app_assoc|].
    destruct Hk as [(-> & -> & Hr)|(-> & Hi & ->)].
    - left. split; [lia|]. split; [done|].
      destruct Hr as [->|?]; [|by right]. destruct Hr1; [by left|done].
    - right. split; [done|]. split; [lia|].
      replace (S (i' - i)) with (S (S (i' - S i))) by lia. done. }
  destruct (SCIPisFeasZero (var_ub var)); simpl in Hrun.
  { apply (Hnext vars r); [done| |done].
    destruct (decide (r = SCIP_CUTOFF)); [by left|by right]. }
  destruct (cons_forbidden cd !! SCIPvarGetMedian var) as [f|];
    simpl in Hrun; [|done].
  destruct (f && SCIPisLocationInCluster var (cons_location cd)).
  2:{ apply (Hnext vars r); [done| |done].
      destruct (decide (r = SCIP_CUTOFF)); [by left|by right]. }
  destruct (SCIPfixVar var real_0) as [[var' infeasible] fixed].
  destruct infeasible.
  - injection Hrun as <- <- <- <-. split; [by rewrite length_insert|].
    exists 1. split; [done|]. right. split; [done|]. split; [lia|].
    by rewrite Nat.sub_diag.
  - apply (Hnext (<[i:=var']> vars) SCIP_REDUCEDDOM);
      [by rewrite length_insert|by right|done].
Qed.

Lemma consProp_cons_trace cd (vars : list (SCIP_VAR Real)) r cd' vars' r' sc :
  consProp_cons cd vars r = Some (cd', vars', r', sc) ->
  length vars' = length vars
  /\ forall result, (r' = SCIP_CUTOFF -> result = SCIP_CUTOFF) ->
       scan_record (length vars) result cd cd' sc.
Proof.
  unfold consProp_cons. intros Hrun.
  destruct (cons_propagate cd) eqn:Hprop.
  2:{ injection Hrun as <- <- <- <-. split; [done|]. intros result _.
      split; [done|]. split; [done|]. intros _. split; [done|].
      rewrite Hprop. done. }
  destruct (consProp_vars cd (cons_npropvars cd)
              (length vars - cons_npropvars cd) vars r [])
    as [[[[vars1 i1] r1] sc1]|] eqn:Hloop; simpl in Hrun; [|done].
  injection Hrun as <- <- <- <-.
  destruct (consProp_vars_trace _ _ _ _ _ _ _ _ _ _ Hloop)
    as (Hlen & k & Hsc & Hk).
  simpl in Hsc. subst sc1.
  split; [done|]. intros result Hres. split; [intros ?; congruence|].
  split; [by rewrite length_seq|].
  intros Hne. split; [done|]. intros _. simpl.
  destruct Hk as [(-> & -> & _)|(-> & _)]; [split; [done|lia]|].
  exfalso. by apply Hne, Hres.
Qed.

Lemma scan_record_unreached nvars (conss : list SCIP_ConsData) :
  Forall3 (scan_record nvars SCIP_CUTOFF) conss conss
    (map (fun _ => []) conss).
Proof.
  induction conss as [|cd rest IH]; simpl; constructor; [|done].
  split; [done|]. split; [done|]. done.
Qed.

Lemma consProp_conss_trace conss :
  forall (vars : list (SCIP_VAR Real)) r conss' vars' r' trace,
    consProp_conss conss vars r = Some (conss', vars', r', trace) ->
    length vars' = length vars
    /\ (r = SCIP_CUTOFF -> r' = SCIP_CUTOFF)
    /\ (r <> SCIP_CUTOFF \/ conss <> [] ->
        Forall3 (scan_record (length vars) r') conss conss' trace).
Proof.
  induction conss as [|cd rest IH]; intros vars r conss' vars' r' trace Hrun.
  { simpl in Hrun. injection Hrun as <- <- <- <-.
    split; [done|]. split; [done|]. intros _. constructor. }
  cbn [consProp_conss] in Hrun.
  destruct (decide (r = SCIP_CUTOFF)) as [->|Hne].
  { injection Hrun as <- <- <- <-. split; [done|]. split; [done|].
    intros _. apply (scan_record_unreached _ (cd :: rest)). }
  destruct (consProp_cons cd vars r) as [[[[cd1 vars1] r1] sc]|] eqn:Hcons;
    simpl in Hrun; [|done].
  destruct (consProp_conss rest vars1 r1)
    as [[[[rest1 vars2] r2] trace1]|] eqn:Hrest; simpl in Hrun; [|done].
  injection Hrun as <- <- <- <-.
  destruct (consProp_cons_trace _ _ _ _ _ _ _ Hcons) as (Hlen1 & Hrec).
  destruct (IH _ _ _ _ _ _ Hrest) as (Hlen2 & Hcut & Hall).
  split; [lia|]. split; [done|]. intros _.
  constructor; [by apply Hrec|].
  rewrite <- Hlen1. destruct rest as [|cd0 rest0].
  - simpl in Hrest. injection Hrest as <- <- <- <-. constructor.
  - apply Hall. by right.
Qed.

Lemma consProp_conss_idle (conss : list SCIP_ConsData) :
  Forall (fun cd => cons_propagate cd = false) conss ->
  forall (vars : list (SCIP_VAR Real)) r,
    r <> SCIP_CUTOFF ->
    consProp_conss conss vars r
    = Some (conss, vars, r, map (fun _ => []) conss).
Proof.
  induction 1 as [|cd rest Hcd _ IH]; intros vars r Hr; [done|].
  cbn [consProp_conss]. rewrite decide_False by done.
  unfold consProp_cons. rewrite Hcd. simpl. rewrite IH by done. done.
Qed.

Lemma scan_record_flags nvars result conss conss' trace :
  result <> SCIP_CUTOFF ->
  Forall3 (scan_record nvars result) conss conss' trace ->
  Forall (fun cd => cons_propagate cd = false) conss'.
Proof.
  intros Hne. induction 1 as [|cd cd' sc ? ? ? (_ & _ & Hrec) _ IH];
    constructor; [|done].
  by destruct (Hrec Hne).
Qed.

End PropagationTrace.

(** X7.  In one call of [consPropSemiassign] every constraint reads a
    contiguous range of variable indices that starts at its mark; a
    constraint that is not flagged reads nothing and is left as it is; and
    unless a cutoff is reported, every flagged constraint reads all indices
    from its mark up to the last variable (none, if the mark is not below
    the number of variables), its flag is cleared, and its mark becomes the
    larger of the old mark and the number of variables: it moves to the
    number of variables if it was at most that, and stays where it was if
    it was beyond.  The number of variables does not change. *)
Theorem propagation_reads_contiguous {Real : Type} `{!Numerics Real}
  `{!Engine Real} (conss conss' : list SCIP_ConsData)
  (vars vars' : list (SCIP_VAR Real)) (result : SCIP_RESULT)
  (trace : list (list nat)) :
  consPropSemiassign conss vars = Some (conss', vars', result, trace) ->
  length vars' = length vars
  /\ Forall3 (scan_record (length vars) result) conss conss' trace.
Proof.
  intros Hrun.
  destruct (consProp_conss_trace conss vars SCIP_DIDNOTFIND _ _ _ _ Hrun)
    as (Hlen & _ & Hall).
  split; [done|]. apply Hall. by left.
Qed.

(** An instance of [propagation_reads_contiguous]: three constraints on
    the five sample columns, the second with its mark at 3 and the third
    with its mark at 7, beyond the last column. *)
Lemma propagation_reads_contiguous_witness :
  let c1 := SCIPcreateConsSemiassign 3 0 [false; true; false] 0 in
  let c2 := {| cons_location := 0; cons_forbidden := [false; false; true];
               cons_node := 1; cons_propagate := true;
               cons_npropvars := 3 |} in
  let c3 := {| cons_location := 1; cons_forbidden := [true; false; false];
               cons_node := 2; cons_propagate := true;
               cons_npropvars := 7 |} in
  exists conss' vars' result trace,
    consPropSemiassign [c1; c2; c3] Sample.vars
    = Some (conss', vars', result, trace)
    /\ trace = [[0; 1; 2; 3; 4]; [3; 4]; []]
    /\ map cons_npropvars conss' = [5; 5; 7]
    /\ length vars' = length Sample.vars
    /\ Forall3 (scan_record (length Sample.vars) result) [c1; c2; c3] conss'
         trace.
Proof.
  eexists _, _, _, _. split; [reflexivity|]. split; [reflexivity|].
  split; [reflexivity|].
  apply (propagation_reads_contiguous
           [SCIPcreateConsSemiassign 3 0 [false; true; false] 0;
            {| cons_location := 0; cons_forbidden := [false; false; true];
               cons_node := 1; cons_propagate := true;
               cons_npropvars := 3 |};
            {| cons_location := 1; cons_forbidden := [true; false; false];
               cons_node := 2; cons_propagate := true;
               cons_npropvars := 7 |}] _ Sample.vars).
  reflexivity.
Defined.

(** X8.  A call of [consPropSemiassign] that does not report a cutoff
    leaves nothing to do: an immediate second call reads no variable,
    changes neither the variables nor the constraints, and reports
    [SCIP_DIDNOTFIND]. *)
Theorem propagation_twice {Real : Type} `{!Numerics Real} `{!Engine Real}
  (conss conss' : list SCIP_ConsData) (vars vars' : list (SCIP_VAR Real))
  (result : SCIP_RESULT) (trace : list (list nat)) :
  consPropSemiassign conss vars = Some (conss', vars', result, trace) ->
  result <> SCIP_CUTOFF ->
  consPropSemiassign conss' vars'
  = Some (conss', vars', SCIP_DIDNOTFIND, map (fun _ => []) conss').
Proof.
  intros Hrun Hne.
  destruct (consProp_conss_trace conss vars SCIP_DIDNOTFIND _ _ _ _ Hrun)
    as (_ & _ & Hall).
  apply consProp_conss_idle; [|done].
  eapply scan_record_flags; [exact Hne|]. apply Hall. by left.
Qed.

(** An instance of [propagation_twice] on the sample columns. *)
Lemma propagation_twice_witness :
  exists conss' vars' result trace,
    consPropSemiassign
      [SCIPcreateConsSemiassign 3 0 [false; true; false] 0] Sample.vars
    = Some (conss', vars', result, trace)
    /\ result = SCIP_REDUCEDDOM
    /\ consPropSemiassign conss' vars'
       = Some (conss', vars', SCIP_DIDNOTFIND, map (fun _ => []) conss').
Proof.
  eexists _, _, _, _. split; [reflexivity|]. split; [reflexivity|].
  apply (propagation_twice
           [SCIPcreateConsSemiassign 3 0 [false; true; false] 0] _
           Sample.vars _ SCIP_REDUCEDDOM [[0; 1; 2; 3; 4]]).
  - reflexivity.
  - discriminate.
Defined.

(** X9.  Suppose [SCIPfixVar] meets its contract and the variables below
    the mark of a constraint that violate it have a zero upper bound.
    When the constraint is activated and [consPropSemiassign] then runs on
    it without reporting a cutoff, its mark is at the number of variables
    and every variable that violates it has a zero upper bound, whatever
    the propagation flag was before the activation. *)
Theorem active_constraint_fully_propagated {Real : Type} `{!Numerics Real}
  `{!Engine Real} (contract : fixVar_contract) (n : nat)
  (cd cd1 : SCIP_ConsData) (pd pd1 : SCIP_PricerData) (b : bool)
  (vars : list (SCIP_VAR Real)) :
  medians_in_range vars cd -> scanned_fixed vars cd ->
  consActiveSemiassign n (length vars) cd pd = Some (cd1, pd1, b) ->
  exists cd2 vars' result scanned,
    consPropSemiassign [cd1] vars = Some ([cd2], vars', result, [scanned])
    /\ (result <> SCIP_CUTOFF ->
        length vars' <= cons_npropvars cd2
        /\ forall j var, vars' !! j = Some var -> violates cd var ->
             SCIPisFeasZero (var_ub var) = true).
Proof.
  intros Hrange Hfixed Hact.
  destruct (consActive_keeps_mark _ _ _ _ _ _ _ Hact)
    as (Hmark & Hforb & Hloc & Hb & Hflag).
  assert (medians_in_range vars cd1) as Hrange1.
  { unfold medians_in_range. by rewrite Hforb. }
  assert (scanned_fixed vars cd1) as Hfixed1.
  { intros j var Hj Hvar [Hv1 Hv2]. rewrite Hmark in Hj.
    apply (Hfixed j var Hj Hvar). split; [by rewrite <- Hforb|].
    by rewrite <- Hloc. }
  destruct (consProp_conss_spec contract [cd1] vars SCIP_DIDNOTFIND)
    as (conss' & vars' & result & trace & Hrun & [Hlen _] & _ & Hall).
  { by repeat constructor. }
  destruct (consProp_conss_trace [cd1] vars SCIP_DIDNOTFIND _ _ _ _ Hrun)
    as (_ & _ & Hrec).
  assert (Forall3 (scan_record (length vars) result) [cd1] conss' trace)
    as Hrec' by (apply Hrec; by left).
  clear Hrec. rename Hrec' into Hrec.
  inversion Hall as [|? cd2 sc ? rest' trace' Hprop Hnil]; subst.
  inversion Hnil; subst.
  inversion Hrec as [|? ? ? ? ? ? (Hidle & _ & Hdone) _]; subst.
  exists cd2, vars', result, sc. split; [exact Hrun|].
  intros Hne. destruct Hprop as (Hloc2 & Hforb2 & Hfixed2 & _).
  assert (length vars' <= cons_npropvars cd2) as Hfull.
  { destruct (Hdone Hne) as [_ Hflagged].
    destruct (cons_propagate cd1) eqn:Hp1.
    - destruct (Hflagged eq_refl) as [_ ->]. lia.
    - destruct (Hidle eq_refl) as [_ ->]. rewrite Hmark.
      try rewrite Hb in Hflag.
      destruct (cons_npropvars cd <? length vars) eqn:Hlt;
        [done|]. apply Nat.ltb_ge in Hlt. lia. }
  split; [done|]. intros j var Hj [Hv1 Hv2].
  apply (Hfixed2 j var); [|done|].
  - apply lookup_lt_Some in Hj. lia.
  - split; [by rewrite Hforb2, Hforb|by rewrite Hloc2, Hloc].
Qed.

(** An instance of [active_constraint_fully_propagated]: a constraint that
    was deactivated before it was ever propagated is activated again. *)
Lemma active_constraint_fully_propagated_witness :
  let cd := {| cons_location := 0; cons_forbidden := [false; true; false];
               cons_node := 0; cons_propagate := false;
               cons_npropvars := 0 |} in
  exists cd1 pd1 b cd2 vars' result scanned,
    consActiveSemiassign 3 (length Sample.vars) cd (pricerInitsolCpmp 3)
    = Some (cd1, pd1, b)
    /\ consPropSemiassign [cd1] Sample.vars
       = Some ([cd2], vars', result, [scanned])
    /\ (result <> SCIP_CUTOFF ->
        length vars' <= cons_npropvars cd2
        /\ forall j var, vars' !! j = Some var -> violates cd var ->
             SCIPisFeasZero (var_ub var) = true).
Proof.
  set (cd := {| cons_location := 0; cons_forbidden := [false; true; false];
                cons_node := 0; cons_propagate := false;
                cons_npropvars := 0 |}).
  assert (medians_in_range Sample.vars cd) as Hrange.
  { unfold medians_in_range, Sample.vars.
    repeat (apply Forall_cons_2; [unfold cd; cbv; lia|]).
    apply Forall_nil_2. }
  assert (scanned_fixed Sample.vars cd) as Hfixed.
  { intros j var Hj. simpl in Hj. lia. }
  assert (consActiveSemiassign 3 (length Sample.vars) cd (pricerInitsolCpmp 3)
          = Some ({| cons_location := 0;
                     cons_forbidden := [false; true; false];
                     cons_node := 0; cons_propagate := true;
                     cons_npropvars := 0 |},
                  {| forbiddenassignments :=
                       [[false; false; false]; [true; false; false];
                        [false; false; false]] |}, true)) as Hact
    by reflexivity.
  destruct (active_constraint_fully_propagated exact_fixVar_contract 3
              cd _ _ _ _ Sample.vars Hrange Hfixed Hact)
    as (cd2 & vars' & result & scanned & Hrun & Hrest).
  intros cd0. eexists _, _, _, cd2, vars', result, scanned.
  split; [exact Hact|]. split; [exact Hrun|exact Hrest].
Defined.

(** ** Pricing (pricer_cpmp.c), continued *)

Section PricingLoop.
Context {Real : Type} `{!Numerics Real} `{!Engine Real}.

Lemma performPricing_loop_spec capacities items profits demands count :
  forall median result calls,
    median + count <= length capacities ->
    exists result' new,
      performPricing_loop capacities items profits demands median count
        result calls = Some (result', calls ++ new)
      /\ kp_capacity <$> new
         = take (priced_medians median count) (drop median capacities)
      /\ (result' = SCIP_SUCCESS
          <-> result = SCIP_SUCCESS
              \/ exists p, p ∈ new
                           /\ ks_success (SCIPsolveKnapsackExactly p) = true)
      /\ (result' = result \/ result' = SCIP_SUCCESS).
Proof.
  induction count as [|k IH]; intros median result calls Hlen.
  { exists result, []. simpl. rewrite app_nil_r. split; [done|].
    split; [done|]. split; [|by left]. split; [by left|].
    intros [?|(p & Hp & _)]; [done|]. by apply elem_of_nil in Hp. }
  cbn [performPricing_loop priced_medians].
  destruct (SCIPisStopped median).
  { exists result, []. rewrite app_nil_r. split; [done|].
    split; [done|]. split; [|by left]. split; [by left|].
    intros [?|(p & Hp & _)]; [done|]. by apply elem_of_nil in Hp. }
  destruct (lookup_lt_is_Some_2 capacities median) as [c Hc]; [lia|].
  rewrite Hc. simpl.
  set (problem := {| kp_nitems := 0; kp_items := take 0 items;
                     kp_weights := take 0 demands;
                     kp_profits := take 0 profits; kp_capacity := c |}
                  : KnapsackProblem Real).
  destruct (IH (S median)
              (if ks_success (SCIPsolveKnapsackExactly problem)
               then SCIP_SUCCESS else result) (calls ++ [problem]))
    as (result' & new & Hrun & Hcaps & Hres & Hkeep); [lia|].
  exists result', (problem :: new).
  split; [by rewrite Hrun, <- app_assoc|]. split; [|split].
  - rewrite fmap_cons, Hcaps. simpl.
    by rewrite (drop_S capacities c median Hc).
  - rewrite Hres. split.
    + intros [Hs|(p & Hp & Hok)].
      * destruct (ks_success (SCIPsolveKnapsackExactly problem)) eqn:Hok;
          [|by left]. right. exists problem. split; [by left|done].
      * right. exists p. split; [by right|done].
    + intros [->|(p & Hp & Hok)].
      * left. by destruct (ks_success _).
      * apply elem_of_cons in Hp as [->|Hp].
        -- left. by rewrite Hok.
        -- right. by exists p.
  - destruct Hkeep as [-> | ->]; [|by right].
    destruct (ks_success _); [by right|by left].
Qed.

End PricingLoop.

(** X10.  With a capacity for every location, [performPricing] returns:
    it solves one knapsack instance per median, in order, up to the first
    median at which [SCIPisStopped] holds, each with the capacity of its
    median; it reports [SCIP_SUCCESS] exactly if the solver succeeded on
    one of them and [SCIP_DIDNOTRUN] otherwise, and returns the master
    problem as it was. *)
Theorem pricing_stops_early {Real : Type} `{!Numerics Real} `{!Engine Real}
  (n : nat) (capacities : list Z) (pd : SCIP_PricerData) (useredcost : bool)
  (master : Master Real) (items : list nat) (profits : list Real)
  (demands : list Z) :
  n <= length capacities ->
  exists result calls,
    performPricing n capacities pd useredcost master items profits demands
    = Some (result, calls, master)
    /\ kp_capacity <$> calls = take (priced_medians 0 n) capacities
    /\ (result = SCIP_SUCCESS
        <-> exists p, p ∈ calls
                      /\ ks_success (SCIPsolveKnapsackExactly p) = true)
    /\ (result = SCIP_SUCCESS \/ result = SCIP_DIDNOTRUN).
Proof.
  intros Hlen.
  destruct (performPricing_loop_spec capacities items profits demands n 0
              SCIP_DIDNOTRUN []) as (result & calls & Hrun & Hcaps & Hres
                                     & Hkeep); [lia|].
  simpl in Hrun. exists result, calls. unfold performPricing.
  rewrite Hrun. simpl. split; [done|]. split; [done|]. split.
  - rewrite Hres. split; [intros [?|?]; done|by right].
  - destruct Hkeep; [by right|by left].
Qed.

(** An instance of [pricing_stops_early] with the reference engine, which
    never stops. *)
Lemma pricing_stops_early_witness :
  exists result calls,
    performPricing 2 [10; 20]%Z (pricerInitsolCpmp 2) true
      (createConstraints (Real := Q) 2) [] [] []
    = Some (result, calls, createConstraints 2)
    /\ kp_capacity <$> calls = take (priced_medians 0 2) [10; 20]%Z
    /\ (result = SCIP_SUCCESS
        <-> exists p, p ∈ calls
                      /\ ks_success (SCIPsolveKnapsackExactly p) = true)
    /\ (result = SCIP_SUCCESS \/ result = SCIP_DIDNOTRUN).
Proof.
  apply (pricing_stops_early (Real := Q) 2 [10; 20]%Z).
  simpl. lia.
Defined.

(** ** The assignment matrix (branch_semiassign.c), continued *)

Section AssignmentsDefined.
Context {Real : Type} `{!Numerics Real} `{!Engine Real}.
Variable n : nat.

Lemma mat_add_defined (M : list (list Real)) i j x :
  square n M ->
  (is_Some (mat_add M i j x) <-> i < n /\ j < n)
  /\ forall M', mat_add M i j x = Some M' -> square n M'.
Proof.
  intros Hsq. split.
  - split.
    + intros [M' HM']. unfold mat_add, mat_get in HM'.
      destruct (M !! i) as [row|] eqn:Hrow; simpl in HM'; [|done].
      destruct (row !! j) as [a|] eqn:Ha; simpl in HM'; [|done].
      apply lookup_lt_Some in Hrow as Hi. destruct Hsq as [Hlen Hrows].
      eapply Forall_lookup_1 in Hrows; [|exact Hrow].
      apply lookup_lt_Some in Ha. lia.
    + intros [Hi Hj].
      destruct (mat_add_spec n M i j x Hsq Hi Hj) as (M' & -> & _). by eexists.
  - intros M' HM'. unfold mat_add, mat_get in HM'.
    destruct (M !! i) as [row|] eqn:Hrow; simpl in HM'; [|done].
    destruct (row !! j) as [a|] eqn:Ha; simpl in HM'; [|done].
    apply mat_set_inv in HM' as (row' & Hrow' & Hj & ->).
    assert (row' = row) as -> by congruence.
    apply square_insert; [done|]. rewrite length_insert.
    destruct Hsq as [_ Hrows]. eapply Forall_lookup_1 in Hrows; eauto.
Qed.

Lemma members_loop_defined cluster x members :
  forall M : list (list Real),
    square n M ->
    (is_Some (foldlM (fun A member => mat_add A member cluster x) M members)
     <-> members = [] \/ (cluster < n /\ Forall (fun l => l < n) members))
    /\ forall M',
         foldlM (fun A member => mat_add A member cluster x) M members
         = Some M' -> square n M'.
Proof.
  induction members as [|mem rest IH]; intros M Hsq.
  { simpl. split; [|by intros M' [= <-]]. split; [by left|by eexists]. }
  destruct (mat_add_defined M mem cluster x Hsq) as [Hdef Hsq1].
  cbn [foldlM]. destruct (mat_add M mem cluster x) as [M1|] eqn:Hadd; simpl.
  - destruct (IH M1 (Hsq1 M1 eq_refl)) as [Hrest Hsq'].
    destruct (proj1 Hdef ltac:(by eexists)) as [Hmem Hc].
    split; [|done]. rewrite Hrest. split.
    + intros [->|[_ Hall]]; right; (split; [done|]); by repeat constructor.
    + intros [?|[_ Hall]]; [done|]. right. split; [done|].
      by apply Forall_cons in Hall as [_ ?].
  - split; [|done]. split; [by intros [? ?]|].
    intros [?|[Hc Hall]]; [done|]. apply Forall_cons in Hall as [Hmem _].
    destruct (proj2 Hdef (conj Hmem Hc)) as [? ?]. done.
Qed.

Lemma vars_loop_defined (sol : SCIP_VAR Real -> Real) vars :
  forall M : list (list Real),
    square n M ->
    is_Some (foldlM (fun assignments var =>
                       foldlM (fun assignments member =>
                                 mat_add assignments member
                                   (SCIPvarGetMedian var) (sol var))
                         assignments (SCIPvarGetLocations var)) M vars)
    <-> Forall (fun var =>
                  SCIPvarGetLocations var = []
                  \/ (SCIPvarGetMedian var < n
                      /\ Forall (fun l => l < n) (SCIPvarGetLocations var)))
          vars.
Proof.
  induction vars as [|var rest IH]; intros M Hsq.
  { simpl. split; [by constructor|by eexists]. }
  destruct (members_loop_defined (SCIPvarGetMedian var) (sol var)
              (SCIPvarGetLocations var) M Hsq) as [Hdef Hsq1].
  cbn [foldlM].
  destruct (foldlM _ M (SCIPvarGetLocations var)) as [M1|] eqn:Hinner; simpl.
  - rewrite (IH M1 (Hsq1 M1 eq_refl)). rewrite Forall_cons.
    split; [|by intros [_ ?]]. intros Hrest. split; [|done].
    apply Hdef. by eexists.
  - split; [by intros [? ?]|]. intros Hall.
    apply Forall_cons in Hall as [Hvar _].
    destruct (proj2 Hdef Hvar) as [? ?]. done.
Qed.

End AssignmentsDefined.

(** X11.  [computeAssignments] stays within the [n] times [n] matrix
    exactly if every variable with a non-empty cluster has a median and
    members below [n]; otherwise it writes outside the matrix. *)
Theorem computeAssignments_defined_iff {Real : Type} `{!Numerics Real}
  `{!Engine Real} (n : nat) (vars : list (SCIP_VAR Real))
  (sol : SCIP_VAR Real -> Real) :
  is_Some (computeAssignments n vars sol)
  <-> Forall (fun var =>
                SCIPvarGetLocations var = []
                \/ (SCIPvarGetMedian var < n
                    /\ Forall (fun l => l < n) (SCIPvarGetLocations var)))
        vars.
Proof.
  unfold computeAssignments. apply vars_loop_defined.
  apply square_replicate.
Qed.

(** ** The branching step (branch_semiassign.c), continued *)

#[local] Arguments Nat.div : simpl never.

Lemma count_even_odd n :
  length (filter (fun b : bool => b = true) (Nat.even <$> seq 0 n))
  = (n + 1) / 2
  /\ length (filter (fun b : bool => b = true) (Nat.odd <$> seq 0 n))
     = n / 2.
Proof.
  induction n as [|n [IHe IHo]]; [done|].
  rewrite seq_S, !fmap_app, !filter_app, !length_app, IHe, IHo. simpl.
  rewrite !filter_cons, !filter_nil.
  assert (forall k, (2 * k) / 2 = k) as Hdiv0.
  { intros k. rewrite Nat.mul_comm. apply Nat.div_mul. lia. }
  assert (forall k, (2 * k + 1) / 2 = k) as Hdiv1.
  { intros k. symmetry. apply (Nat.div_unique _ _ _ 1); lia. }
  assert (forall k, S (2 * k + 1) = 2 * (k + 1)) as Hs1 by (intros; lia).
  assert (forall k, S (2 * k) = 2 * k + 1) as Hs0 by (intros; lia).
  assert (forall k, 2 * k + 1 + 1 = 2 * (k + 1)) as Hs2 by (intros; lia).
  destruct (Nat.even n) eqn:Heven.
  - rewrite <- Nat.negb_even, Heven. simpl.
    apply Nat.even_spec in Heven as [k ->].
    repeat (progress rewrite ?Hs1, ?Hs0, ?Hs2).
    rewrite ?Hdiv0, ?Hdiv1. split; lia.
  - rewrite <- Nat.negb_even, Heven. simpl.
    assert (Nat.odd n = true) as Hodd by (by rewrite <- Nat.negb_even, Heven).
    apply Nat.odd_spec in Hodd as [k ->].
    repeat (progress rewrite ?Hs1, ?Hs0, ?Hs2).
    rewrite ?Hdiv0, ?Hdiv1. split; lia.
Qed.

Lemma positions_Permutation n (ids : list nat) (arr : list bool)
  (f : nat -> bool) :
  Permutation ids (seq 0 n) -> length arr = n ->
  (forall i m, i < n -> ids !! i = Some m -> arr !! m = Some (f i)) ->
  Permutation arr (f <$> seq 0 n).
Proof.
  intros Hperm Hlen Hpos.
  assert (length ids = n) as Hids.
  { by rewrite (Permutation_length Hperm), length_seq. }
  assert ((fun m => default false (arr !! m)) <$> ids = f <$> seq 0 n) as Heq.
  { apply list_eq. intros i. rewrite !list_lookup_fmap.
    destruct (decide (i < n)) as [Hi|Hi].
    - destruct (lookup_lt_is_Some_2 ids i) as [m Hm]; [lia|].
      rewrite Hm, lookup_seq_lt by done. simpl.
      by rewrite (Hpos i m Hi Hm).
    - rewrite lookup_ge_None_2 by lia.
      rewrite (lookup_seq_ge 0 n i) by lia. done. }
  assert ((fun m => default false (arr !! m)) <$> seq 0 n = arr) as Harr.
  { apply list_eq. intros m. rewrite list_lookup_fmap.
    destruct (decide (m < n)) as [Hm|Hm].
    - rewrite lookup_seq_lt by done. simpl.
      destruct (lookup_lt_is_Some_2 arr m) as [b Hb]; [lia|].
      by rewrite Hb.
    - rewrite (lookup_seq_ge 0 n m) by lia. simpl.
      by rewrite lookup_ge_None_2 by lia. }
  rewrite <- Heq, <- Harr at 1. by rewrite Hperm.
Qed.

(** X12.  When no median is forbidden yet for the location, the two
    children of [performBranching] split the [n] medians evenly: the left
    child forbids (n + 1) / 2 of them and the right child n / 2. *)
Theorem unrestricted_branching_is_balanced {Real : Type} `{!Numerics Real}
  `{!Engine Real} (n : nat) (pd : SCIP_PricerData) (ids : list nat)
  (row : list Real) (loc : nat) :
  square n (forbiddenassignments pd) -> loc < n ->
  Permutation ids (seq 0 n) ->
  (forall m, m < n ->
     SCIPpricerCpmpIsAssignmentForbidden pd m loc = Some false) ->
  exists L R,
    performBranching n pd ids row loc = Some [L; R]
    /\ length (filter (fun b : bool => b = true)
                 (cons_forbidden (child_cons L))) = (n + 1) / 2
    /\ length (filter (fun b : bool => b = true)
                 (cons_forbidden (child_cons R))) = n / 2.
Proof.
  intros Hsq Hloc Hperm Hfree.
  destruct (seq_permutation_facts n ids Hperm) as (Hlen & Hnodup & Hrange).
  destruct (performBranching_spec n pd ids loc Hsq Hloc Hlen Hnodup Hrange row)
    as (left & right & Hrun & Hl & Hr & Hdone & _).
  simpl in Hl, Hr.
  eexists _, _. split; [exact Hrun|]. cbn [child_cons].
  rewrite !createCons_forbidden by done.
  assert (forall i m, i < n -> ids !! i = Some m ->
            left !! m = Some (Nat.even i) /\ right !! m = Some (Nat.odd i))
    as Hpos.
  { intros i m Hi Him. destruct (Hdone i m Hi Him) as (f & Hf & Hlm & Hrm).
    simpl in Hlm, Hrm.
    assert (m < n) as Hm by (eapply Forall_lookup_1 in Hrange; eauto).
    rewrite (Hfree m Hm) in Hf. injection Hf as <-. done. }
  destruct (count_even_odd n) as [He Ho].
  split.
  - rewrite (positions_Permutation n ids left Nat.even Hperm Hl); [done|].
    intros i m Hi Him. by destruct (Hpos i m Hi Him).
  - rewrite (positions_Permutation n ids right Nat.odd Hperm Hr); [done|].
    intros i m Hi Him. by destruct (Hpos i m Hi Him).
Qed.

(** An instance of [unrestricted_branching_is_balanced]. *)
Lemma unrestricted_branching_is_balanced_witness :
  exists L R,
    performBranching 3 (pricerInitsolCpmp 3) [1; 0; 2]
      [(1 # 2)%Q; (1 # 2)%Q; 0%Q] 0 = Some [L; R]
    /\ length (filter (fun b : bool => b = true)
                 (cons_forbidden (child_cons L))) = (3 + 1) / 2
    /\ length (filter (fun b : bool => b = true)
                 (cons_forbidden (child_cons R))) = 3 / 2.
Proof.
  apply (unrestricted_branching_is_balanced (Real := Q) 3).
  - split; [reflexivity|]. repeat constructor.
  - lia.
  - simpl. apply perm_swap.
  - intros [|[|[|m]]] Hm; first [reflexivity | lia].
Defined.

(** ** The assignment matrix (branch_semiassign.c): columns at zero *)

(** X13.  If adding 0.0 to 0.0 gives 0.0 and every variable that has
    median [j] and contains location [i] has the solution value 0.0 (as
    the columns that a branching constraint has fixed have), then the
    assignment value of location [i] to median [j] is 0.0. *)
Theorem zero_columns_give_zero_assignment {Real : Type} `{!Numerics Real}
  `{!Engine Real} (n : nat) (vars : list (SCIP_VAR Real))
  (sol : SCIP_VAR Real -> Real) (i j : nat) :
  Forall (valid_var n) vars -> i < n -> j < n ->
  real_add real_0 real_0 = real_0 ->
  (forall var, var ∈ vars -> SCIPvarGetMedian var = j ->
               i ∈ SCIPvarGetLocations var -> sol var = real_0) ->
  exists A,
    computeAssignments n vars sol = Some A
    /\ mat_get A i j = Some real_0.
Proof.
  intros Hvalid Hi Hj Hadd Hzero.
  destruct (vars_loop_spec n sol vars (replicate n (replicate n real_0))
              (square_replicate n real_0) Hvalid) as (A & Hrun & _ & Hget).
  exists A. split; [exact Hrun|].
  rewrite (Hget i j real_0).
  2:{ unfold mat_get. rewrite lookup_replicate_2 by done. simpl.
      by rewrite lookup_replicate_2. }
  f_equal.
  assert (forall l : list (SCIP_VAR Real),
            Forall (fun var => sol var = real_0) l ->
            foldl real_add real_0 (map sol l) = real_0) as Hsum.
  { induction 1 as [|var l Hvar _ IH]; [done|].
    simpl. by rewrite Hvar, Hadd. }
  apply Hsum. apply Forall_forall. intros var Hin.
  apply list_elem_of_filter in Hin as [[Hm Hl] Hin]. by apply Hzero.
Qed.

(** An instance of [zero_columns_give_zero_assignment]: the two sample
    columns with median 1 that contain location 1 are both at zero. *)
Lemma zero_columns_give_zero_assignment_witness :
  filter (fun var : SCIP_VAR Q =>
            SCIPvarGetMedian var = 1 /\ 1 ∈ SCIPvarGetLocations var)
    Sample.vars
  = [Sample.column 1 1 [0; 1]; Sample.column 2 1 [1]]
  /\ exists A,
       computeAssignments 3 Sample.vars Sample2.sol_fixed = Some A
       /\ mat_get A 1 1 = Some (real_0 (Real := Q)).
Proof.
  split; [reflexivity|].
  apply (zero_columns_give_zero_assignment 3 Sample.vars Sample2.sol_fixed
           1 1).
  - apply (bool_decide_unpack _). vm_compute. reflexivity.
  - lia.
  - lia.
  - reflexivity.
  - intros var Hin Hm Hl. unfold Sample.vars in Hin.
    repeat (apply elem_of_cons in Hin as [-> | Hin];
            [first [reflexivity | vm_compute in Hm; discriminate]|]).
    by apply elem_of_nil in Hin.
Defined.
